(** * stereoscope, pkg/file/tarutil.go: tar iteration, lookup and extraction

    A shallow embedding of [IterateTar], [ReaderFromTar], [MetadataFromTar]
    and [tarVisitor.visit], with the properties of the iteration protocol,
    the two lookups and the extraction policy stated over it.

    Conventions.
    - Go's [error] interface is the inductive [error]; a nil error is [None].
    - [int64] values are [Z]; [sequence++] is written with its wrap-around.
    - The tar byte format is the business of archive/tar: a stream is
      represented by what [tar.Reader.Next] yields on it, pull after pull.
    - The filesystem capability [afero.Fs] is an interface: the visitor is a
      program over its calls ([FsProg]) that a capability ([Fs]) runs. *)

From Stdlib Require Import ZArith Lia Bool Strings.Ascii Strings.String Strings.Byte.
From stdpp Require Import base option list strings gmap.

Local Open Scope string_scope.
Local Open Scope list_scope.
Local Open Scope Z_scope.

(** ** Errors *)

(** The error values the file creates or tests for. [ErrVisit] and [ErrCopy]
    are the two [fmt.Errorf] calls with a [%w] verb: they wrap their last
    argument. [ErrExternal] stands for any error of a collaborator (decoder,
    filesystem, stream). *)
Inductive error : Type :=
| EOF                                         (* io.EOF *)
| ErrTarStopIteration                         (* "halt iterating tar" *)
| ErrFileNotFound (Path : string)             (* &ErrFileNotFound{Path} *)
| ErrTraversal (name : string)                (* "potential path traversal attack with entry: %q" *)
| ErrReadLimit (numBytes limit : Z)           (* "zip read limit hit (...): %v > %v." *)
| ErrCopy (wrapped : error)                   (* "unable to copy file: %w" *)
| ErrVisit (name : string) (wrapped : error)  (* "failed to visit tar entry=%q : %w" *)
| ErrShortWrite                               (* io.ErrShortWrite *)
| ErrInvalidWrite                             (* io.errInvalidWrite *)
| ErrExternal (msg : string).

Global Instance error_eq_dec : EqDecision error.
Proof. solve_decision. Defined.

(** The [Error] method of [ErrFileNotFound]. *)
Definition ErrFileNotFound_Error (Path : string) : string :=
  "file not found (path=" +:+ Path +:+ ")".

(** [errors.Unwrap]: only the [%w] errors have something inside. *)
Definition Unwrap (err : error) : option error :=
  match err with
  | ErrCopy e => Some e
  | ErrVisit _ e => Some e
  | _ => None
  end.

(** [errors.Is]: the error or anything along its unwrap chain equals the
    target. *)
Fixpoint errors_Is (err target : error) : bool :=
  bool_decide (err = target) ||
  match err with
  | ErrCopy e => errors_Is e target
  | ErrVisit _ e => errors_Is e target
  | _ => false
  end.

(** [errors.Is] on a possibly nil error. *)
Definition is_err (err : option error) (target : error) : bool :=
  match err with
  | Some e => errors_Is e target
  | None => false
  end.

(** ** int64 *)

Definition wrap64 (x : Z) : Z := (x + 2 ^ 63) mod 2 ^ 64 - 2 ^ 63.

(** ** Paths: path/filepath and strings on a Unix target *)

Definition PathSeparator : string := "/".

(** [strings.HasPrefix s prefix]. *)
Definition HasPrefix (s prefix : string) : bool := String.prefix prefix s.

(** [strings.Split s "/"]. *)
Fixpoint splitSlash (s : string) : list string :=
  match s with
  | EmptyString => [EmptyString]
  | String c s' =>
      if Ascii.eqb c "/"%char then EmptyString :: splitSlash s'
      else match splitSlash s' with
           | x :: xs => String c x :: xs
           | [] => [String c EmptyString]
           end
  end.

(** [strings.Join elems "/"]. *)
Fixpoint joinSlash (elems : list string) : string :=
  match elems with
  | [] => EmptyString
  | [x] => x
  | x :: xs => x +:+ "/" +:+ joinSlash xs
  end.

(** One path element of [filepath.Clean], on the stack of elements kept so
    far (innermost first): empty and [.] elements go; [..] removes the
    element before it, is dropped at the root of a rooted path and is kept
    at the start of a relative one. *)
Definition cleanStep (rooted : bool) (stack : list string) (elem : string)
  : list string :=
  if String.eqb elem "" || String.eqb elem "." then stack
  else if String.eqb elem ".." then
    match stack with
    | top :: below => if String.eqb top ".." then elem :: stack else below
    | [] => if rooted then [] else [elem]
    end
  else elem :: stack.

(** [filepath.Clean] (lexical, separator [/]). *)
Definition Clean (path : string) : string :=
  if String.eqb path "" then "."
  else
    let rooted := HasPrefix path "/" in
    let kept := rev (fold_left (cleanStep rooted) (splitSlash path) []) in
    let out := joinSlash kept in
    if rooted then "/" +:+ out
    else if String.eqb out "" then "." else out.

(** [filepath.Join a b]: empty elements before the first non-empty one are
    ignored, the rest is joined with the separator and cleaned; all empty
    gives the empty string. *)
Definition Join (a b : string) : string :=
  if negb (String.eqb a "") then Clean (a +:+ PathSeparator +:+ b)
  else if negb (String.eqb b "") then Clean b
  else "".

(** ** archive/tar: headers, entries and the sequential decoder *)

Definition TypeReg : byte := "0"%byte.
Definition TypeLink : byte := "1"%byte.
Definition TypeSymlink : byte := "2"%byte.
Definition TypeDir : byte := "5"%byte.

(** The fields of [tar.Header] that the file reads. *)
Record tar_Header : Type := {
  Typeflag : byte;
  Name : string;
  Linkname : string;
  Size : Z;
  Mode : Z
}.

(** The payload of one entry as [tar.Reader.Read] serves it: the bytes still
    unread and what ends them, [None] for a clean [io.EOF], [Some e] for a
    read error [e] (a truncated archive, say). *)
Record Body : Type := {
  body_data : list byte;
  body_fin : option error
}.

(** One call of [tar.Reader.Next]: the pair [(hdr, err)] it returns and the
    payload it leaves the reader positioned at. *)
Record Pull : Type := {
  pull_hdr : option tar_Header;
  pull_err : option error;
  pull_body : Body
}.

(** The caller's stream ([io.Reader], [io.ReadCloser]): an object with an
    identity, its raw bytes, and what a [tar.Reader] over it yields. Past
    its last pull, [Next] returns [io.EOF]. *)
Record Stream : Type := {
  stream_id : nat;
  stream_raw : list byte;
  stream_pulls : list Pull
}.

(** The [io.Reader] values the file handles: the caller's stream itself, and
    the [tar.Reader] made over it, positioned in an entry. *)
Inductive ioReader : Type :=
| StreamReader (s : Stream)
| TarReader (under : Stream) (cur : Body).

Record TarFileEntry : Type := {
  Sequence : Z;
  Header : tar_Header;
  Reader : ioReader
}.

(** [TarFileVisitor]: a Go closure; [V] is what it closes over and mutates. *)
Definition TarFileVisitor (V : Type) : Type :=
  TarFileEntry -> V -> option error * V.

(** A pull that yields an entry: a header and no error. *)
Definition is_entry (p : Pull) : bool :=
  match pull_err p, pull_hdr p with
  | None, Some _ => true
  | _, _ => false
  end.

(** The loop of [IterateTar]; [sequence] is the counter before [sequence++],
    [pulls] what the decoder still has to yield. *)
Fixpoint iterate {V : Type} (reader : Stream) (pulls : list Pull)
    (sequence : Z) (visitor : TarFileVisitor V) (s : V) : option error * V :=
  let sequence := wrap64 (sequence + 1) in
  match pulls with
  | [] => (None, s)
  | p :: pulls' =>
      if is_err (pull_err p) EOF then (None, s)
      else
        match pull_err p with
        | Some err => (Some err, s)
        | None =>
            match pull_hdr p with
            | None => iterate reader pulls' sequence visitor s
            | Some hdr =>
                match visitor {| Sequence := sequence;
                                 Header := hdr;
                                 Reader := TarReader reader (pull_body p) |} s with
                | (Some err, s') =>
                    if errors_Is err ErrTarStopIteration then (None, s')
                    else (Some (ErrVisit (Name hdr) err), s')
                | (None, s') => iterate reader pulls' sequence visitor s'
                end
            end
        end
  end.

Definition IterateTar {V : Type} (reader : Stream) (visitor : TarFileVisitor V)
    (s : V) : option error * V :=
  iterate reader (stream_pulls reader) (-1) visitor s.

(** A visitor that also keeps the list of the entries it was called with, in
    call order. It returns what the visitor returns. *)
Definition traced {V : Type} (visitor : TarFileVisitor V)
  : TarFileVisitor (V * list TarFileEntry) :=
  fun entry st =>
    let '(err, s') := visitor entry (fst st) in
    (err, (s', snd st ++ [entry])).

(** The entries that the pulls [pulls] hold, numbered as the loop numbers
    them when its counter stands at [sequence]: every pull advances the
    counter, only a pull with a header gives an entry. *)
Fixpoint entriesFrom (reader : Stream) (sequence : Z) (pulls : list Pull)
  : list TarFileEntry :=
  match pulls with
  | [] => []
  | p :: pulls' =>
      let sequence := wrap64 (sequence + 1) in
      match pull_hdr p with
      | Some hdr =>
          {| Sequence := sequence; Header := hdr;
             Reader := TarReader reader (pull_body p) |}
          :: entriesFrom reader sequence pulls'
      | None => entriesFrom reader sequence pulls'
      end
  end.

(** ** Lookups *)

(** [tarFile]: an [io.Reader] and an [io.Closer] embedded side by side. *)
Record tarFile : Type := {
  tf_Reader : ioReader;
  tf_Closer : Stream
}.

(** Closing a stream, on the set of the streams closed so far. *)
Definition Stream_Close (s : Stream) (closed : gset nat)
  : option error * gset nat :=
  (None, {[stream_id s]} ∪ closed).

(** [tarFile] has no [Close] of its own: the call goes to the embedded
    [io.Closer]. *)
Definition tarFile_Close (f : tarFile) (closed : gset nat)
  : option error * gset nat :=
  Stream_Close (tf_Closer f) closed.

(** The bytes that a reader serves: the unread payload of the entry for a
    [tar.Reader], the raw bytes for the stream. *)
Definition served (r : ioReader) : Body :=
  match r with
  | TarReader _ cur => cur
  | StreamReader s => {| body_data := stream_raw s; body_fin := None |}
  end.

(** The closure of [ReaderFromTar]; its captured variable [result] is the
    state. *)
Definition readerVisitor (reader : Stream) (tarPath : string)
  : TarFileVisitor (option tarFile) :=
  fun entry result =>
    if String.eqb (Name (Header entry)) tarPath then
      (Some ErrTarStopIteration,
       Some {| tf_Reader := Reader entry; tf_Closer := reader |})
    else (None, result).

Definition ReaderFromTar (reader : Stream) (tarPath : string)
  : option tarFile * option error :=
  match IterateTar reader (readerVisitor reader tarPath) None with
  | (Some err, _) => (None, Some err)
  | (None, None) => (None, Some (ErrFileNotFound tarPath))
  | (None, Some result) => (Some result, None)
  end.

Section MetadataLookup.
(** [Metadata] and [NewMetadata] are declared elsewhere in the package:
    the lookup is stated for any record type, any constructor and any zero
    value [Metadata{}]. *)
Variable Metadata : Type.
Variable NewMetadata : tar_Header -> option ioReader -> Metadata.
Variable Metadata_zero : Metadata.

(** The [content] local of the closure of [MetadataFromTar]: nil unless
    the declared size is positive, and then the [reader] argument. *)
Definition metadataContent (reader : Stream) (entry : TarFileEntry)
  : option ioReader :=
  if 0 <? Size (Header entry) then Some (StreamReader reader) else None.

Definition metadataVisitor (reader : Stream) (tarPath : string)
  : TarFileVisitor (option Metadata) :=
  fun entry metadata =>
    if String.eqb (Name (Header entry)) tarPath then
      let content := metadataContent reader entry in
      let m := NewMetadata (Header entry) content in
      (Some ErrTarStopIteration, Some m)
    else (None, metadata).

Definition MetadataFromTar (reader : Stream) (tarPath : string)
  : Metadata * option error :=
  match IterateTar reader (metadataVisitor reader tarPath) None with
  | (Some err, _) => (Metadata_zero, Some err)
  | (None, None) => (Metadata_zero, Some (ErrFileNotFound tarPath))
  | (None, Some metadata) => (metadata, None)
  end.
End MetadataLookup.

(** ** The filesystem capability *)

(** An open file ([afero.File]) is known by its descriptor. *)
Definition File : Type := nat.

(** A program over the calls of [afero.Fs] and [afero.File] that the
    visitor makes; every continuation takes what the call returns. *)
Inductive FsProg (R : Type) : Type :=
| Ret (r : R)
| CallStat (name : string) (k : option error -> FsProg R)
| CallMkdirAll (path : string) (perm : Z) (k : option error -> FsProg R)
| CallOpenFile (name : string) (flag perm : Z) (k : File + error -> FsProg R)
| CallWrite (f : File) (p : list byte) (k : Z * option error -> FsProg R)
| CallClose (f : File) (k : option error -> FsProg R).

Arguments Ret {R} r.
Arguments CallStat {R} name k.
Arguments CallMkdirAll {R} path perm k.
Arguments CallOpenFile {R} name flag perm k.
Arguments CallWrite {R} f p k.
Arguments CallClose {R} f k.

Fixpoint bind {A B : Type} (m : FsProg A) (g : A -> FsProg B) : FsProg B :=
  match m with
  | Ret r => g r
  | CallStat name k => CallStat name (fun x => bind (k x) g)
  | CallMkdirAll path perm k => CallMkdirAll path perm (fun x => bind (k x) g)
  | CallOpenFile name flag perm k =>
      CallOpenFile name flag perm (fun x => bind (k x) g)
  | CallWrite f p k => CallWrite f p (fun x => bind (k x) g)
  | CallClose f k => CallClose f (fun x => bind (k x) g)
  end.

(** An implementation of the capability, over its own state [F]. *)
Record Fs (F : Type) : Type := {
  Stat : string -> F -> option error * F;
  MkdirAll : string -> Z -> F -> option error * F;
  OpenFile : string -> Z -> Z -> F -> (File + error) * F;
  Write : File -> list byte -> F -> (Z * option error) * F;
  Close : File -> F -> option error * F
}.

Arguments Stat {F} _ _ _.
Arguments MkdirAll {F} _ _ _ _.
Arguments OpenFile {F} _ _ _ _ _.
Arguments Write {F} _ _ _ _.
Arguments Close {F} _ _ _.

Fixpoint run {F R : Type} (impl : Fs F) (m : FsProg R) (s : F) : R * F :=
  match m with
  | Ret r => (r, s)
  | CallStat name k =>
      let '(x, s') := Stat impl name s in run impl (k x) s'
  | CallMkdirAll path perm k =>
      let '(x, s') := MkdirAll impl path perm s in run impl (k x) s'
  | CallOpenFile name flag perm k =>
      let '(x, s') := OpenFile impl name flag perm s in run impl (k x) s'
  | CallWrite f p k =>
      let '(x, s') := Write impl f p s in run impl (k x) s'
  | CallClose f k =>
      let '(x, s') := Close impl f s in run impl (k x) s'
  end.

(** ** io: readers and Copy *)

(** [Read] on a payload with a buffer of [n] bytes: what is there, up to
    [n] bytes; at the end, no byte and the final error. *)
Definition Body_Read (b : Body) (n : nat)
  : (list byte * option error) * Body :=
  match body_data b with
  | [] => (([], Some (default EOF (body_fin b))), b)
  | _ :: _ =>
      ((take n (body_data b), None),
       {| body_data := drop n (body_data b); body_fin := body_fin b |})
  end.

(** [io.LimitedReader]. *)
Record LimitedReader : Type := {
  lr_R : Body;
  lr_N : Z
}.

Definition LimitReader (r : ioReader) (n : Z) : LimitedReader :=
  {| lr_R := served r; lr_N := n |}.

(** [(l *LimitedReader) Read(p)] with [len(p) = n]. *)
Definition LimitedReader_Read (l : LimitedReader) (n : nat)
  : (list byte * option error) * LimitedReader :=
  if lr_N l <=? 0 then (([], Some EOF), l)
  else
    let n := if lr_N l <? Z.of_nat n then Z.to_nat (lr_N l) else n in
    let '((p, err), r') := Body_Read (lr_R l) n in
    ((p, err), {| lr_R := r'; lr_N := lr_N l - Z.of_nat (length p) |}).

(** The buffer that [io.Copy] allocates: 32 KiB, less when the source is a
    [LimitedReader] with less left, never empty. *)
Definition bufSize (src : LimitedReader) : nat :=
  let size := 32 * 1024 in
  if lr_N src <? size then
    if lr_N src <? 1 then 1%nat else Z.to_nat (lr_N src)
  else Z.to_nat size.

(** The end of one round of the copy loop: a read error ends the copy, and
    is reported unless it is [io.EOF]. *)
Definition afterRead (er : option error) (written : Z)
    (again : FsProg (Z * option error)) : FsProg (Z * option error) :=
  match er with
  | Some e => Ret (written, if bool_decide (e = EOF) then None else Some e)
  | None => again
  end.

(** The loop of [io.Copy]. Every round that does not end the copy takes at
    least one byte off the source, which bounds the rounds: [fuel]. *)
Fixpoint copyLoop (fuel : nat) (dst : File) (src : LimitedReader)
    (buf : nat) (written : Z) : FsProg (Z * option error) :=
  match fuel with
  | O => Ret (written, None)
  | S fuel' =>
      let '((p, er), src') := LimitedReader_Read src buf in
      let nr := Z.of_nat (length p) in
      if 0 <? nr then
        CallWrite dst p (fun res =>
          let '(nw, ew) :=
            if (fst res <? 0) || (nr <? fst res)
            then (0, Some (default ErrInvalidWrite (snd res)))
            else res in
          let written := written + nw in
          match ew with
          | Some e => Ret (written, Some e)
          | None =>
              if negb (nr =? nw) then Ret (written, Some ErrShortWrite)
              else afterRead er written (copyLoop fuel' dst src' buf written)
          end)
      else afterRead er written (copyLoop fuel' dst src' buf written)
  end.

(** [io.Copy dst src] for a limited source. *)
Definition io_Copy (dst : File) (src : LimitedReader)
  : FsProg (Z * option error) :=
  copyLoop (S (length (body_data (lr_R src)))) dst src (bufSize src) 0.

(** ** The read limit *)

Section ReadLimit.
(** [GB] is declared elsewhere in the package. *)
Variable GB : Z.

Definition perFileReadLimitDefault : Z := 2 * GB.

(** [setPerFileReadLimit]; [parsed] is what [strconv.ParseInt(val, 10, 64)]
    returns for the string, and the package variable [perFileReadLimit] is
    passed in and returned. *)
Definition setPerFileReadLimit (parsed : Z + error) (perFileReadLimit : Z)
  : Z :=
  match parsed with
  | inr _ => perFileReadLimit
  | inl valInt64 => if valInt64 <=? 0 then perFileReadLimit else valInt64
  end.

(** The value of [perFileReadLimit] after [init], for the string that
    [perFileReadLimitStr] holds at that time. *)
Definition initReadLimit (parsed : Z + error) : Z :=
  setPerFileReadLimit parsed perFileReadLimitDefault.
End ReadLimit.

(** ** Extraction *)

(** [os.O_RDWR] and [os.O_CREATE] on Linux. *)
Definition O_RDWR : Z := 2.
Definition O_CREATE : Z := 64.

(** [os.FileMode(m)] for an [int64]: the low 32 bits. *)
Definition FileMode (m : Z) : Z := m mod 2 ^ 32.

Record tarVisitor (F : Type) : Type := {
  fs : Fs F;
  destination : string
}.

Arguments fs {F} _.
Arguments destination {F} _.

(** [tarVisitor.visit], as the program of its calls to [v.fs]. The package
    variable [perFileReadLimit] is a parameter; logging is left out. *)
Definition visit {F : Type} (v : tarVisitor F) (perFileReadLimit : Z)
    (entry : TarFileEntry) : FsProg (option error) :=
  let target := Join (destination v) (Name (Header entry)) in
  let withinDir := destination v +:+ PathSeparator in
  if negb (HasPrefix target withinDir)
     && negb (String.eqb (Name (Header entry)) ".")
  then Ret (Some (ErrTraversal (Name (Header entry))))
  else
    let flag := Typeflag (Header entry) in
    if Byte.eqb flag TypeSymlink || Byte.eqb flag TypeLink then Ret None
    else if Byte.eqb flag TypeDir then
      if String.eqb (Name (Header entry)) "." then Ret None
      else
        CallStat target (fun err =>
          match err with
          | Some _ =>
              CallMkdirAll target 493 (fun err =>
                match err with
                | Some e => Ret (Some e)
                | None => Ret None
                end)
          | None => Ret None
          end)
    else if Byte.eqb flag TypeReg then
      CallOpenFile target (Z.lor O_CREATE O_RDWR)
        (FileMode (Mode (Header entry))) (fun opened =>
          match opened with
          | inr err => Ret (Some err)
          | inl f =>
              bind (io_Copy f (LimitReader (Reader entry) perFileReadLimit))
                (fun res =>
                  let '(numBytes, err) := res in
                  if (numBytes >=? perFileReadLimit) || is_err err EOF
                  then Ret (Some (ErrReadLimit numBytes perFileReadLimit))
                  else
                    match err with
                    | Some e => Ret (Some (ErrCopy e))
                    | None => CallClose f (fun _ => Ret None)
                    end)
          end)
    else Ret None.

(** The visitor as [IterateTar] calls it: the program run on [v.fs]. *)
Definition runVisit {F : Type} (v : tarVisitor F) (perFileReadLimit : Z)
  : TarFileVisitor F :=
  fun entry s => run (fs v) (visit v perFileReadLimit entry) s.

(** [UntarToDirectory]; [osfs] is [afero.NewOsFs()]. *)
Definition UntarToDirectory {F : Type} (osfs : Fs F) (perFileReadLimit : Z)
    (reader : Stream) (dst : string) (s : F) : option error * F :=
  IterateTar reader
    (runVisit {| fs := osfs; destination := dst |} perFileReadLimit) s.

(** ** An in-memory filesystem

    The capability is a collaborator; this implementation of it keeps
    directories and regular files by cleaned path, and the open files with
    their offsets. It follows the operating system where the visitor can
    tell: [OpenFile] with [O_CREATE] makes an empty file when the path is
    free and its parent is a directory, opens an existing file at offset 0
    without truncating it, and refuses to open a directory for writing. *)

Inductive Node : Type :=
| DirNode (perm : Z)
| FileNode (perm : Z) (data : list byte).

Record MemFs : Type := {
  nodes : gmap string Node;
  opened : gmap nat (string * nat);
  next_fd : nat
}.

Definition ENOENT : error := ErrExternal "no such file or directory".
Definition ENOTDIR : error := ErrExternal "not a directory".
Definition EISDIR : error := ErrExternal "is a directory".
Definition EBADF : error := ErrExternal "bad file descriptor".

(** [filepath.Dir] of a cleaned path. *)
Definition parentDir (path : string) : string :=
  let dir := joinSlash (removelast (splitSlash path)) in
  if String.eqb dir "" then (if HasPrefix path "/" then "/" else ".")
  else dir.

Definition mem_Stat (name : string) (m : MemFs) : option error * MemFs :=
  match nodes m !! name with
  | Some _ => (None, m)
  | None => (Some ENOENT, m)
  end.

(** The directories along [elems] below [base], made where missing. *)
Fixpoint mkdirs (base : string) (elems : list string) (perm : Z)
    (ns : gmap string Node) : option error * gmap string Node :=
  match elems with
  | [] => (None, ns)
  | e :: es =>
      if String.eqb e "" then mkdirs base es perm ns
      else
        let here :=
          if String.eqb base "" || String.eqb base "/" then base +:+ e
          else base +:+ "/" +:+ e in
        match ns !! here with
        | Some (FileNode _ _) => (Some ENOTDIR, ns)
        | Some (DirNode _) => mkdirs here es perm ns
        | None => mkdirs here es perm (<[here := DirNode perm]> ns)
        end
  end.

Definition mem_MkdirAll (path : string) (perm : Z) (m : MemFs)
  : option error * MemFs :=
  let '(err, ns) :=
    mkdirs (if HasPrefix path "/" then "/" else "") (splitSlash path) perm
      (nodes m) in
  (err, {| nodes := ns; opened := opened m; next_fd := next_fd m |}).

Definition mem_OpenFile (name : string) (flag perm : Z) (m : MemFs)
  : (File + error) * MemFs :=
  let open_with (ns : gmap string Node) : (File + error) * MemFs :=
    (inl (next_fd m),
     {| nodes := ns;
        opened := <[next_fd m := (name, 0%nat)]> (opened m);
        next_fd := S (next_fd m) |}) in
  match nodes m !! name with
  | Some (DirNode _) =>
      if Z.land flag 3 =? 0 then open_with (nodes m) else (inr EISDIR, m)
  | Some (FileNode _ _) => open_with (nodes m)
  | None =>
      if Z.testbit flag 6 then
        match nodes m !! parentDir name with
        | Some (DirNode _) => open_with (<[name := FileNode perm []]> (nodes m))
        | _ => (inr ENOENT, m)
        end
      else (inr ENOENT, m)
  end.

(** The bytes of a file after [p] is written at offset [off]. *)
Definition writeAt (data : list byte) (off : nat) (p : list byte)
  : list byte :=
  take off data ++ replicate (off - length data)%nat Byte.x00 ++ p
  ++ drop (off + length p)%nat data.

Definition mem_Write (f : File) (p : list byte) (m : MemFs)
  : (Z * option error) * MemFs :=
  match opened m !! f with
  | Some (name, off) =>
      match nodes m !! name with
      | Some (FileNode perm data) =>
          ((Z.of_nat (length p), None),
           {| nodes := <[name := FileNode perm (writeAt data off p)]> (nodes m);
              opened := <[f := (name, (off + length p)%nat)]> (opened m);
              next_fd := next_fd m |})
      | _ => ((0, Some EBADF), m)
      end
  | None => ((0, Some EBADF), m)
  end.

Definition mem_Close (f : File) (m : MemFs) : option error * MemFs :=
  match opened m !! f with
  | Some _ =>
      (None, {| nodes := nodes m; opened := delete f (opened m);
                next_fd := next_fd m |})
  | None => (Some EBADF, m)
  end.

Definition memFs : Fs MemFs := {|
  Stat := mem_Stat;
  MkdirAll := mem_MkdirAll;
  OpenFile := mem_OpenFile;
  Write := mem_Write;
  Close := mem_Close
|}.

(** A filesystem holding the root and the directory [/out]. *)
Definition outFs : MemFs := {|
  nodes := {[ "/" := DirNode 493; "/out" := DirNode 493 ]};
  opened := ∅;
  next_fd := 3
|}.

Definition bytes_hi : list byte := ["h"%byte; "i"%byte].

Definition mkHeader (flag : byte) (name : string) (data : list byte)
  : tar_Header :=
  {| Typeflag := flag; Name := name; Linkname := "";
     Size := Z.of_nat (length data); Mode := 420 |}.

Definition mkPull (flag : byte) (name : string) (data : list byte) : Pull :=
  {| pull_hdr := Some (mkHeader flag name data);
     pull_err := None;
     pull_body := {| body_data := data; body_fin := None |} |}.

Definition mkStream (pulls : list Pull) : Stream :=
  {| stream_id := 0; stream_raw := []; stream_pulls := pulls |}.

(** ** Runs of the loop *)

(** The counter of the loop after the pulls [pulls]. *)
Definition seqAfter (sequence : Z) (pulls : list Pull) : Z :=
  fold_left (fun k _ => wrap64 (k + 1)) pulls sequence.

(** The entry that the loop hands to the visitor for a pull with header
    [hdr], when its counter stands at [sequence] before the pull. *)
Definition entryAt (reader : Stream) (sequence : Z) (hdr : tar_Header)
    (p : Pull) : TarFileEntry :=
  {| Sequence := wrap64 (sequence + 1);
     Header := hdr;
     Reader := TarReader reader (pull_body p) |}.

(** [continuesThrough reader visitor sequence s pulls s']: from counter
    [sequence] and visitor state [s], the loop goes through all of [pulls]
    and still runs, the visitor state being [s']: no pull fails, and the
    visitor returns nil for every entry it is handed. *)
Inductive continuesThrough {V : Type} (reader : Stream)
    (visitor : TarFileVisitor V) : Z -> V -> list Pull -> V -> Prop :=
| through_nil sequence s :
    continuesThrough reader visitor sequence s [] s
| through_skip sequence s p pulls s' :
    pull_err p = None ->
    pull_hdr p = None ->
    continuesThrough reader visitor (wrap64 (sequence + 1)) s pulls s' ->
    continuesThrough reader visitor sequence s (p :: pulls) s'
| through_visit sequence s p hdr s1 pulls s' :
    pull_err p = None ->
    pull_hdr p = Some hdr ->
    visitor (entryAt reader sequence hdr p) s = (None, s1) ->
    continuesThrough reader visitor (wrap64 (sequence + 1)) s1 pulls s' ->
    continuesThrough reader visitor sequence s (p :: pulls) s'.

(** A pull that does not fail and does not carry the name [tarPath]. *)
Definition passes (tarPath : string) (p : Pull) : bool :=
  match pull_err p, pull_hdr p with
  | None, Some hdr => negb (String.eqb (Name hdr) tarPath)
  | None, None => true
  | Some _, _ => false
  end.

(** A pull that yields an entry named [tarPath]. *)
Definition matches (tarPath : string) (p : Pull) : bool :=
  match pull_err p, pull_hdr p with
  | None, Some hdr => String.eqb (Name hdr) tarPath
  | _, _ => false
  end.

(** The containment check of [visit] lets the entry through. *)
Definition contained (dst : string) (entry : TarFileEntry) : bool :=
  HasPrefix (Join dst (Name (Header entry))) (dst +:+ PathSeparator)
  || String.eqb (Name (Header entry)) ".".

(** What [io.Copy] returns as its error when the source is a payload of
    [len] bytes ending in [fin], read through a limit of [N] bytes and
    written without a failure: the read error of the payload when its end
    is reached before the limit, nil otherwise. *)
Definition copyErr (fin : option error) (len : nat) (N : Z) : option error :=
  if Z.of_nat len <? N then
    match fin with
    | Some e => if bool_decide (e = EOF) then None else Some e
    | None => None
    end
  else None.

(** ** Separators in a path *)

(** The string begins with a separator. *)
Definition startsSlash (s : string) : bool :=
  match s with
  | String c _ => Ascii.eqb c "/"
  | EmptyString => false
  end.

(** The string holds two separators in a row. *)
Fixpoint doubled (s : string) : bool :=
  match s with
  | EmptyString => false
  | String c s' => (Ascii.eqb c "/" && startsSlash s') || doubled s'
  end.

(** The string holds no separator. *)
Fixpoint slashFree (s : string) : bool :=
  match s with
  | EmptyString => true
  | String c s' => negb (Ascii.eqb c "/") && slashFree s'
  end.

(** ** Where the calls of a program go *)

(** [confined P files m]: every path that the program [m] hands to the
    capability satisfies [P], and it writes to and closes only the files in
    [files] and the files it has opened itself, whatever the capability
    answers. *)
Inductive confined {R : Type} (P : string -> Prop)
  : list File -> FsProg R -> Prop :=
| confined_Ret files r :
    confined P files (Ret r)
| confined_Stat files name k :
    P name ->
    (forall x, confined P files (k x)) ->
    confined P files (CallStat name k)
| confined_MkdirAll files path perm k :
    P path ->
    (forall x, confined P files (k x)) ->
    confined P files (CallMkdirAll path perm k)
| confined_OpenFile files name flag perm k :
    P name ->
    (forall f, confined P (f :: files) (k (inl f))) ->
    (forall err, confined P files (k (inr err))) ->
    confined P files (CallOpenFile name flag perm k)
| confined_Write files f p k :
    f ∈ files ->
    (forall x, confined P files (k x)) ->
    confined P files (CallWrite f p k)
| confined_Close files f k :
    f ∈ files ->
    (forall x, confined P files (k x)) ->
    confined P files (CallClose f k).

(** An entry for which [visit] has nothing to do: it passes the containment
    check and is a link, the directory ".", or of a type that is neither
    directory nor regular file. *)
Definition leftAlone (dst : string) (entry : TarFileEntry) : bool :=
  contained dst entry
  && (Byte.eqb (Typeflag (Header entry)) TypeSymlink
      || Byte.eqb (Typeflag (Header entry)) TypeLink
      || (Byte.eqb (Typeflag (Header entry)) TypeDir
          && String.eqb (Name (Header entry)) ".")
      || negb (Byte.eqb (Typeflag (Header entry)) TypeDir
               || Byte.eqb (Typeflag (Header entry)) TypeReg)).

(** ** Sample inputs *)

(** An entry as the loop would hand it over, with the payload [data]. *)
Definition mkEntry (flag : byte) (name : string) (data : list byte)
  : TarFileEntry :=
  {| Sequence := 0;
     Header := mkHeader flag name data;
     Reader := TarReader (mkStream [])
                 {| body_data := data; body_fin := None |} |}.

(** A symlink entry named [name] that points to [/etc/passwd]. *)
Definition linkEntry (name : string) : TarFileEntry :=
  {| Sequence := 0;
     Header := {| Typeflag := TypeSymlink; Name := name;
                  Linkname := "/etc/passwd"; Size := 0; Mode := 511 |};
     Reader := TarReader (mkStream [])
                 {| body_data := []; body_fin := None |} |}.

(** The extraction visitor over the in-memory filesystem, unpacking to
    [/out]. *)
Definition outVisitor : tarVisitor MemFs :=
  {| fs := memFs; destination := "/out" |}.

(** A stream of three entries. *)
Definition threeEntries : Stream :=
  mkStream [mkPull TypeDir "a/" [];
            mkPull TypeReg "a/b.txt" bytes_hi;
            mkPull TypeReg "c" []].

(** A visitor that counts its calls. *)
Definition countVisitor : TarFileVisitor nat :=
  fun _ n => (None, S n).

(** A visitor that counts its calls and fails on the entry named [name]. *)
Definition failOn (name : string) : TarFileVisitor nat :=
  fun entry n =>
    if String.eqb (Name (Header entry)) name
    then (Some (ErrExternal "boom"), n)
    else (None, S n).

(** A metadata constructor that keeps its two arguments. *)
Definition keepArgs (hdr : tar_Header) (content : option ioReader)
  : tar_Header * option ioReader :=
  (hdr, content).

Definition noArgs : tar_Header * option ioReader :=
  ({| Typeflag := Byte.x00; Name := ""; Linkname := ""; Size := 0; Mode := 0 |},
   None).

(** A pull with a nil header and no error, and a pull that fails. *)
Definition nilPull : Pull :=
  {| pull_hdr := None; pull_err := None;
     pull_body := {| body_data := []; body_fin := None |} |}.

Definition failPull (err : error) : Pull :=
  {| pull_hdr := None; pull_err := Some err;
     pull_body := {| body_data := []; body_fin := None |} |}.

Definition ErrUnexpectedEOF : error := ErrExternal "unexpected EOF".

(** Streams with a nil header, a failing pull, an escaping entry, and with
    nothing but a link and a character device. *)
Definition gapStream : Stream :=
  mkStream [mkPull TypeDir "a/" []; nilPull; mkPull TypeReg "c" bytes_hi].

Definition brokenStream : Stream :=
  mkStream [mkPull TypeDir "a/" []; failPull ErrUnexpectedEOF;
            mkPull TypeReg "c" []].

Definition escapeStream : Stream :=
  mkStream [mkPull TypeDir "a/" []; mkPull TypeReg "../escape" bytes_hi;
            mkPull TypeReg "c" []].

Definition linkStream : Stream :=
  mkStream [mkPull TypeSymlink "a/link" []; mkPull "3"%byte "dev/null" []].

(** [outFs] with a file of five bytes at [/out/a.txt]. *)
Definition bytes_hello : list byte :=
  ["h"%byte; "e"%byte; "l"%byte; "l"%byte; "o"%byte].

Definition outFsWithFile : MemFs := {|
  nodes := {[ "/" := DirNode 493; "/out" := DirNode 493;
              "/out/a.txt" := FileNode 384 bytes_hello ]};
  opened := ∅;
  next_fd := 3
|}.

(** A regular-file entry whose payload breaks off after two bytes. *)
Definition brokenEntry : TarFileEntry :=
  {| Sequence := 0;
     Header := mkHeader TypeReg "a.txt" bytes_hello;
     Reader := TarReader (mkStream [])
                 {| body_data := bytes_hi;
                    body_fin := Some ErrUnexpectedEOF |} |}.

(** * Properties *)

(** ** Checks on concrete inputs *)

Example Join_plain : Join "/out" "a/b.txt" = "/out/a/b.txt".
Proof. reflexivity. Qed.
Example Join_escape : Join "/out" "../escape" = "/escape".
Proof. reflexivity. Qed.
Example Join_dot : Join "/out" "." = "/out".
Proof. reflexivity. Qed.
Example Join_abs : Join "/out" "/etc/passwd" = "/out/etc/passwd".
Proof. reflexivity. Qed.
Example Join_rel : Join "out" "a/../../../x" = "../x".
Proof. reflexivity. Qed.
Example Clean_cases :
  map Clean ["a//b"; "/"; "a/.."; "/../a"; "../.."; "./a"; "/a/./b/";
             "abc/def/../../.."; "/abc/def/../../.."]
  = ["a/b"; "/"; "."; "/a"; "../.."; "a"; "/a/b"; ".."; "/"].
Proof. reflexivity. Qed.

(** The read limit stays positive: a string that does not parse, or parses
    to zero or less, leaves it as it is. *)
Lemma setPerFileReadLimit_positive (parsed : Z + error) (limit : Z) :
  0 < limit -> 0 < setPerFileReadLimit parsed limit.
Proof.
  intros Hpos. unfold setPerFileReadLimit.
  destruct parsed as [v|e]; [|exact Hpos].
  destruct (v <=? 0) eqn:Hv; [exact Hpos|].
  apply Z.leb_gt in Hv. exact Hv.
Qed.

Example initReadLimit_default : initReadLimit (2 ^ 30) (inl 0) = 2 * 2 ^ 30.
Proof. reflexivity. Qed.

(** The example of the specification: a directory and a file under it. *)
Example untar_example :
  let r := UntarToDirectory memFs (2 * 2 ^ 30)
             (mkStream [mkPull TypeDir "a/" []; mkPull TypeReg "a/b.txt" bytes_hi])
             "/out" outFs in
  fst r = None
  /\ nodes (snd r) !! "/out/a" = Some (DirNode 493)
  /\ nodes (snd r) !! "/out/a/b.txt" = Some (FileNode 420 bytes_hi).
Proof. vm_compute. auto. Qed.

(** ** The loop *)

Lemma wrap64_small (x : Z) : - 2 ^ 63 <= x < 2 ^ 63 -> wrap64 x = x.
Proof.
  intros Hx. unfold wrap64.
  rewrite Z.mod_small by lia. lia.
Qed.

Lemma seqAfter_app (k : Z) (pre rest : list Pull) :
  seqAfter k (pre ++ rest) = seqAfter (seqAfter k pre) rest.
Proof. unfold seqAfter. apply fold_left_app. Qed.

Lemma entriesFrom_app (reader : Stream) (pre rest : list Pull) (k : Z) :
  entriesFrom reader k (pre ++ rest)
  = entriesFrom reader k pre ++ entriesFrom reader (seqAfter k pre) rest.
Proof.
  revert k. induction pre as [|p pre IH]; intros k; simpl; [done|].
  rewrite IH. by destruct (pull_hdr p).
Qed.

Section Loop.
Context {V : Type}.
Variable reader : Stream.
Variable visitor : TarFileVisitor V.

(** The loop goes through a prefix that it [continuesThrough] and carries
    on with the rest. *)
Lemma iterate_through (pre rest : list Pull) (k : Z) (s s' : V) :
  continuesThrough reader visitor k s pre s' ->
  iterate reader (pre ++ rest) k visitor s
  = iterate reader rest (seqAfter k pre) visitor s'.
Proof.
  induction 1 as [k s | k s p pulls s' He Hh _ IH
                 | k s p hdr s1 pulls s' He Hh Hv _ IH]; simpl.
  - done.
  - rewrite He, Hh. simpl. exact IH.
  - rewrite He, Hh. simpl. unfold entryAt in Hv. rewrite Hv. exact IH.
Qed.

(** Along such a prefix the traced visitor records the entries of the
    prefix, in order. *)
Lemma through_traced (pre : list Pull) (k : Z) (s s' : V)
    (seen : list TarFileEntry) :
  continuesThrough reader visitor k s pre s' ->
  continuesThrough reader (traced visitor) k (s, seen) pre
    (s', seen ++ entriesFrom reader k pre).
Proof.
  intros H. revert seen.
  induction H as [k s | k s p pulls s' He Hh _ IH
                 | k s p hdr s1 pulls s' He Hh Hv _ IH]; intros seen; simpl.
  - rewrite app_nil_r. constructor.
  - rewrite Hh. apply through_skip; auto.
  - rewrite Hh. eapply through_visit; eauto.
    + unfold traced. simpl. rewrite Hv. reflexivity.
    + replace (seen ++ _ :: entriesFrom reader (wrap64 (k + 1)) pulls)
        with ((seen ++ [entryAt reader k hdr p])
              ++ entriesFrom reader (wrap64 (k + 1)) pulls)
        by (rewrite <- app_assoc; reflexivity).
      apply IH.
Qed.

(** A visitor that returns nil on the entries of a prefix without failed
    pulls, whatever its state, goes through it. *)
Lemma through_fold (pre : list Pull) (k : Z) (s : V) :
  Forall (fun p => pull_err p = None) pre ->
  Forall (fun e => forall s, fst (visitor e s) = None)
         (entriesFrom reader k pre) ->
  continuesThrough reader visitor k s pre
    (fold_left (fun s e => snd (visitor e s)) (entriesFrom reader k pre) s).
Proof.
  revert k s. induction pre as [|p pre IH]; intros k s He Hv; simpl.
  - constructor.
  - inversion He as [|? ? Hp He']; subst.
    destruct (pull_hdr p) as [hdr|] eqn:Hh.
    + simpl in Hv. rewrite Hh in Hv.
      inversion Hv as [|? ? Hv1 Hv']; subst. simpl.
      eapply through_visit; eauto.
      unfold entryAt. specialize (Hv1 s).
      destruct (visitor _ s) as [r s1]. simpl in *. by subst.
    + simpl in Hv. rewrite Hh in Hv.
      apply through_skip; auto.
Qed.

(** What the loop does with an entry for which the visitor returns an
    error: it returns at once, with nil for the stop sentinel and with
    the wrapped error otherwise. *)
Lemma iterate_visitor_error (p : Pull) (rest : list Pull) (k : Z) (s s' : V)
    (hdr : tar_Header) (err : error) :
  pull_err p = None ->
  pull_hdr p = Some hdr ->
  visitor (entryAt reader k hdr p) s = (Some err, s') ->
  iterate reader (p :: rest) k visitor s
  = (if errors_Is err ErrTarStopIteration then None
     else Some (ErrVisit (Name hdr) err), s').
Proof.
  intros He Hh Hv. simpl. rewrite He, Hh. simpl.
  unfold entryAt in Hv. rewrite Hv.
  by destruct (errors_Is err ErrTarStopIteration).
Qed.
End Loop.

Lemma traced_error {V : Type} (visitor : TarFileVisitor V)
    (entry : TarFileEntry) (s s' : V) (r : option error)
    (seen : list TarFileEntry) :
  visitor entry s = (r, s') ->
  traced visitor entry (s, seen) = (r, (s', seen ++ [entry])).
Proof. intros H. unfold traced. simpl. by rewrite H. Qed.

(** While the counter stays in range, the entries are numbered from the
    counter on, one by one. *)
Lemma entriesFrom_Sequence (reader : Stream) (pulls : list Pull) (k : Z) :
  forallb is_entry pulls = true ->
  - 2 ^ 63 <= k + 1 ->
  k + Z.of_nat (length pulls) < 2 ^ 63 ->
  map Sequence (entriesFrom reader k pulls)
  = map (fun i => k + 1 + Z.of_nat i) (seq 0 (length pulls)).
Proof.
  revert k. induction pulls as [|p pulls IH]; intros k Hall Hlo Hhi; [done|].
  simpl in Hall. apply andb_true_iff in Hall as [Hp Hall].
  unfold is_entry in Hp.
  destruct (pull_err p); [done|].
  simpl. destruct (pull_hdr p) as [hdr|]; [|done].
  simpl length in Hhi.
  rewrite wrap64_small by lia. simpl. f_equal; [lia|].
  rewrite IH by (auto; lia).
  rewrite <- seq_shift, map_map.
  apply map_ext. intros i. lia.
Qed.

Lemma entriesFrom_Header (reader : Stream) (pulls : list Pull) (k : Z) :
  forallb is_entry pulls = true ->
  map (fun e => Some (Header e)) (entriesFrom reader k pulls)
  = map pull_hdr pulls.
Proof.
  revert k. induction pulls as [|p pulls IH]; intros k Hall; [done|].
  simpl in Hall. apply andb_true_iff in Hall as [Hp Hall].
  unfold is_entry in Hp.
  destruct (pull_err p); [done|].
  simpl. destruct (pull_hdr p) as [hdr|]; [|done].
  simpl. by rewrite IH.
Qed.

Lemma is_entry_no_error (pulls : list Pull) :
  forallb is_entry pulls = true ->
  Forall (fun p => pull_err p = None) pulls.
Proof.
  intros H. apply Forall_forall. intros p Hin.
  rewrite forallb_forall in H. apply list_elem_of_In in Hin.
  specialize (H p Hin).
  unfold is_entry in H. by destruct (pull_err p).
Qed.

(** C3. On a stream of N well-formed entries (every pull yields a header and
    no error; N within the range of the int64 counter), a visitor that
    always returns nil is called exactly N times, on the entries in stream
    order with Sequence 0, 1, ..., N-1, and [IterateTar] returns nil. The
    traced visitor shows the calls; the state is the visitor's, folded over
    the entries in that order. *)
Theorem IterateTar_visits_every_entry {V : Type} (reader : Stream)
    (visitor : TarFileVisitor V) (s : V) :
  forallb is_entry (stream_pulls reader) = true ->
  Z.of_nat (length (stream_pulls reader)) <= 2 ^ 63 ->
  (forall e s, fst (visitor e s) = None) ->
  let entries := entriesFrom reader (-1) (stream_pulls reader) in
  IterateTar reader (traced visitor) (s, [])
  = (None, (fold_left (fun s e => snd (visitor e s)) entries s, entries))
  /\ IterateTar reader visitor s
     = (None, fold_left (fun s e => snd (visitor e s)) entries s)
  /\ length entries = length (stream_pulls reader)
  /\ map Sequence entries
     = map Z.of_nat (seq 0 (length (stream_pulls reader)))
  /\ map (fun e => Some (Header e)) entries = map pull_hdr (stream_pulls reader).
Proof.
  intros Hall Hlen Hcont entries.
  pose proof (is_entry_no_error _ Hall) as Hne.
  assert (Hseq : map Sequence entries
                 = map Z.of_nat (seq 0 (length (stream_pulls reader)))).
  { unfold entries. rewrite entriesFrom_Sequence by (auto; lia).
    apply map_ext. intros i. lia. }
  assert (Hthrough : continuesThrough reader visitor (-1) s
            (stream_pulls reader)
            (fold_left (fun s e => snd (visitor e s)) entries s)).
  { apply through_fold; auto. apply Forall_forall. auto. }
  repeat split.
  - unfold IterateTar.
    rewrite <- (app_nil_r (stream_pulls reader)) at 1.
    rewrite (iterate_through reader (traced visitor) _ []
               (-1) (s, []) _ (through_traced reader visitor _ _ _ _ [] Hthrough)).
    reflexivity.
  - unfold IterateTar.
    rewrite <- (app_nil_r (stream_pulls reader)) at 1.
    rewrite (iterate_through reader visitor _ [] (-1) s _ Hthrough).
    reflexivity.
  - apply (f_equal (@length _)) in Hseq.
    rewrite !length_map, length_seq in Hseq. exact Hseq.
  - exact Hseq.
  - apply entriesFrom_Header. exact Hall.
Qed.

(** The run of [IterateTar] up to an entry for which the visitor returns
    an error, plain and traced. *)
Lemma IterateTar_at_error {V : Type} (reader : Stream)
    (visitor : TarFileVisitor V) (pre rest : list Pull) (p : Pull)
    (hdr : tar_Header) (s s1 s' : V) (err : error) :
  stream_pulls reader = pre ++ p :: rest ->
  continuesThrough reader visitor (-1) s pre s1 ->
  pull_err p = None ->
  pull_hdr p = Some hdr ->
  visitor (entryAt reader (seqAfter (-1) pre) hdr p) s1 = (Some err, s') ->
  IterateTar reader visitor s
  = (if errors_Is err ErrTarStopIteration then None
     else Some (ErrVisit (Name hdr) err), s')
  /\ IterateTar reader (traced visitor) (s, [])
     = (if errors_Is err ErrTarStopIteration then None
        else Some (ErrVisit (Name hdr) err),
        (s', entriesFrom reader (-1) (pre ++ [p]))).
Proof.
  intros Hpulls Hpre He Hh Hv. unfold IterateTar. rewrite Hpulls. split.
  - rewrite (iterate_through reader visitor pre (p :: rest) (-1) s s1 Hpre).
    by apply iterate_visitor_error.
  - rewrite (iterate_through reader (traced visitor) pre (p :: rest) (-1)
               (s, []) _ (through_traced reader visitor pre (-1) s s1 [] Hpre)).
    rewrite (iterate_visitor_error reader (traced visitor) p rest _ _
               (s', ([] ++ entriesFrom reader (-1) pre)
                    ++ [entryAt reader (seqAfter (-1) pre) hdr p])
               hdr err He Hh (traced_error visitor _ _ _ _ _ Hv)).
    simpl. rewrite entriesFrom_app. simpl. by rewrite Hh.
Qed.

(** C6. When the loop has gone through the pulls before an entry and the
    visitor returns an error for that entry: if the error is not the stop
    sentinel (in the sense of [errors.Is], the test of the code),
    [IterateTar] returns the error that wraps the entry's name and the
    visitor's error; if it is the stop sentinel, [IterateTar] returns nil.
    Either way the loop ends there: the visitor state is the one it left at
    that entry, and no entry after it is visited. *)
Theorem IterateTar_visitor_error {V : Type} (reader : Stream)
    (visitor : TarFileVisitor V) (pre rest : list Pull) (p : Pull)
    (hdr : tar_Header) (s s1 s' : V) (err : error) :
  stream_pulls reader = pre ++ p :: rest ->
  continuesThrough reader visitor (-1) s pre s1 ->
  pull_err p = None ->
  pull_hdr p = Some hdr ->
  visitor (entryAt reader (seqAfter (-1) pre) hdr p) s1 = (Some err, s') ->
  (errors_Is err ErrTarStopIteration = false ->
     IterateTar reader visitor s = (Some (ErrVisit (Name hdr) err), s')
     /\ Unwrap (ErrVisit (Name hdr) err) = Some err)
  /\ (errors_Is err ErrTarStopIteration = true ->
        IterateTar reader visitor s = (None, s'))
  /\ snd (snd (IterateTar reader (traced visitor) (s, [])))
     = entriesFrom reader (-1) (pre ++ [p]).
Proof.
  intros Hpulls Hpre He Hh Hv.
  destruct (IterateTar_at_error reader visitor pre rest p hdr s s1 s' err
              Hpulls Hpre He Hh Hv) as [Hrun Htr].
  split; [|split].
  - intros Hno. rewrite Hno in Hrun. by split.
  - intros Hstop. by rewrite Hstop in Hrun.
  - by rewrite Htr.
Qed.

(** ** The lookups *)

(** A visitor that returns nil, its state untouched, for every entry not
    named [tarPath] goes through a prefix of such entries. *)
Lemma through_passes {V : Type} (reader : Stream) (visitor : TarFileVisitor V)
    (tarPath : string) :
  (forall e s, String.eqb (Name (Header e)) tarPath = false ->
               visitor e s = (None, s)) ->
  forall (pre : list Pull) (k : Z) (s : V),
    forallb (passes tarPath) pre = true ->
    continuesThrough reader visitor k s pre s.
Proof.
  intros Hv pre. induction pre as [|p pre IH]; intros k s Hall.
  - constructor.
  - simpl in Hall. apply andb_true_iff in Hall as [Hp Hall].
    unfold passes in Hp.
    destruct (pull_err p) eqn:He; [done|].
    destruct (pull_hdr p) as [hdr|] eqn:Hh.
    + eapply through_visit; eauto.
      apply Hv. simpl. by apply negb_true_iff.
    + apply through_skip; auto.
Qed.

Lemma readerVisitor_other (reader : Stream) (tarPath : string)
    (e : TarFileEntry) (s : option tarFile) :
  String.eqb (Name (Header e)) tarPath = false ->
  readerVisitor reader tarPath e s = (None, s).
Proof. intros H. unfold readerVisitor. by rewrite H. Qed.

Lemma matches_inv (tarPath : string) (m : Pull) :
  matches tarPath m = true ->
  pull_err m = None
  /\ exists hdr, pull_hdr m = Some hdr /\ Name hdr = tarPath.
Proof.
  unfold matches. destruct (pull_err m); [done|].
  destruct (pull_hdr m) as [hdr|]; [|done].
  intros H. apply String.eqb_eq in H. eauto.
Qed.

(** The content lookup at the first entry named [tarPath]. *)
Lemma ReaderFromTar_found (reader : Stream) (tarPath : string)
    (pre post : list Pull) (m : Pull) (hdr : tar_Header) :
  stream_pulls reader = pre ++ m :: post ->
  forallb (passes tarPath) pre = true ->
  matches tarPath m = true ->
  pull_hdr m = Some hdr ->
  IterateTar reader (traced (readerVisitor reader tarPath)) (None, [])
  = (None, (Some {| tf_Reader := TarReader reader (pull_body m);
                    tf_Closer := reader |},
            entriesFrom reader (-1) (pre ++ [m])))
  /\ ReaderFromTar reader tarPath
     = (Some {| tf_Reader := TarReader reader (pull_body m);
                tf_Closer := reader |}, None).
Proof.
  intros Hpulls Hpre Hm Hh.
  destruct (matches_inv _ _ Hm) as (He & hdr' & Hh' & Hname).
  assert (hdr' = hdr) by congruence. subst hdr'.
  pose proof (through_passes reader _ tarPath
                (readerVisitor_other reader tarPath) pre (-1) None Hpre)
    as Hthrough.
  assert (Hstop : readerVisitor reader tarPath
                    (entryAt reader (seqAfter (-1) pre) hdr m) None
                  = (Some ErrTarStopIteration,
                     Some {| tf_Reader := TarReader reader (pull_body m);
                             tf_Closer := reader |})).
  { unfold readerVisitor. simpl. rewrite Hname, String.eqb_refl. done. }
  destruct (IterateTar_at_error reader _ pre post m hdr _ _ _ _
              Hpulls Hthrough He Hh Hstop) as [Hrun Htr].
  simpl in Hrun, Htr. split; [exact Htr|].
  unfold ReaderFromTar. by rewrite Hrun.
Qed.

(** The content lookup on a stream without an entry named [tarPath]. *)
Lemma ReaderFromTar_absent (reader : Stream) (tarPath : string) :
  forallb (passes tarPath) (stream_pulls reader) = true ->
  IterateTar reader (traced (readerVisitor reader tarPath)) (None, [])
  = (None, (None, entriesFrom reader (-1) (stream_pulls reader)))
  /\ ReaderFromTar reader tarPath = (None, Some (ErrFileNotFound tarPath)).
Proof.
  intros Hall.
  pose proof (through_passes reader _ tarPath
                (readerVisitor_other reader tarPath) _ (-1) None Hall)
    as Hthrough.
  unfold ReaderFromTar, IterateTar.
  rewrite <- (app_nil_r (stream_pulls reader)) at 1 3.
  rewrite (iterate_through reader _ _ [] (-1) _ _
             (through_traced reader _ _ _ _ _ [] Hthrough)).
  rewrite (iterate_through reader _ _ [] (-1) _ _ Hthrough).
  done.
Qed.

(** An error of the iteration is what the content lookup returns. *)
Lemma ReaderFromTar_propagates (reader : Stream) (tarPath : string)
    (err : error) (result : option tarFile) :
  IterateTar reader (readerVisitor reader tarPath) None = (Some err, result) ->
  ReaderFromTar reader tarPath = (None, Some err).
Proof. intros H. unfold ReaderFromTar. by rewrite H. Qed.

Section MetadataLookupProperties.
Variable Metadata : Type.
Variable NewMetadata : tar_Header -> option ioReader -> Metadata.
Variable Metadata_zero : Metadata.

Lemma metadataVisitor_other (reader : Stream) (tarPath : string)
    (e : TarFileEntry) (s : option Metadata) :
  String.eqb (Name (Header e)) tarPath = false ->
  metadataVisitor Metadata NewMetadata reader tarPath e s = (None, s).
Proof. intros H. unfold metadataVisitor. by rewrite H. Qed.

(** The closure of the metadata lookup on an entry named [tarPath]. *)
Lemma metadataVisitor_match (reader : Stream) (tarPath : string)
    (e : TarFileEntry) (s : option Metadata) :
  Name (Header e) = tarPath ->
  metadataVisitor Metadata NewMetadata reader tarPath e s
  = (Some ErrTarStopIteration,
     Some (NewMetadata (Header e) (metadataContent reader e))).
Proof.
  intros H. unfold metadataVisitor. by rewrite H, String.eqb_refl.
Qed.

(** The metadata lookup at the first entry named [tarPath]. *)
Lemma MetadataFromTar_found (reader : Stream) (tarPath : string)
    (pre post : list Pull) (m : Pull) (hdr : tar_Header) :
  stream_pulls reader = pre ++ m :: post ->
  forallb (passes tarPath) pre = true ->
  matches tarPath m = true ->
  pull_hdr m = Some hdr ->
  let entry := entryAt reader (seqAfter (-1) pre) hdr m in
  IterateTar reader
    (traced (metadataVisitor Metadata NewMetadata reader tarPath)) (None, [])
  = (None, (Some (NewMetadata hdr (metadataContent reader entry)),
            entriesFrom reader (-1) (pre ++ [m])))
  /\ MetadataFromTar Metadata NewMetadata Metadata_zero reader tarPath
     = (NewMetadata hdr (metadataContent reader entry), None).
Proof.
  intros Hpulls Hpre Hm Hh entry.
  destruct (matches_inv _ _ Hm) as (He & hdr' & Hh' & Hname).
  assert (hdr' = hdr) by congruence. subst hdr'.
  pose proof (through_passes reader _ tarPath
                (metadataVisitor_other reader tarPath) pre (-1) None Hpre)
    as Hthrough.
  destruct (IterateTar_at_error reader _ pre post m hdr _ _ _ _
              Hpulls Hthrough He Hh
              (metadataVisitor_match reader tarPath entry None Hname))
    as [Hrun Htr].
  simpl in Hrun, Htr. split; [exact Htr|].
  unfold MetadataFromTar. by rewrite Hrun.
Qed.

(** The metadata lookup on a stream without an entry named [tarPath]. *)
Lemma MetadataFromTar_absent (reader : Stream) (tarPath : string) :
  forallb (passes tarPath) (stream_pulls reader) = true ->
  IterateTar reader
    (traced (metadataVisitor Metadata NewMetadata reader tarPath)) (None, [])
  = (None, (None, entriesFrom reader (-1) (stream_pulls reader)))
  /\ MetadataFromTar Metadata NewMetadata Metadata_zero reader tarPath
     = (Metadata_zero, Some (ErrFileNotFound tarPath)).
Proof.
  intros Hall.
  pose proof (through_passes reader _ tarPath
                (metadataVisitor_other reader tarPath) _ (-1) None Hall)
    as Hthrough.
  unfold MetadataFromTar, IterateTar.
  rewrite <- (app_nil_r (stream_pulls reader)) at 1 3.
  rewrite (iterate_through reader _ _ [] (-1) _ _
             (through_traced reader _ _ _ _ _ [] Hthrough)).
  rewrite (iterate_through reader _ _ [] (-1) _ _ Hthrough).
  done.
Qed.

Lemma MetadataFromTar_propagates (reader : Stream) (tarPath : string)
    (err : error) (metadata : option Metadata) :
  IterateTar reader (metadataVisitor Metadata NewMetadata reader tarPath) None
  = (Some err, metadata) ->
  MetadataFromTar Metadata NewMetadata Metadata_zero reader tarPath
  = (Metadata_zero, Some err).
Proof. intros H. unfold MetadataFromTar. by rewrite H. Qed.

(** C4. On a stream whose pulls before the entry named [tarPath] are
    well formed and carry other names (so in particular when the path
    occurs exactly once), whatever comes after that entry: the content
    lookup returns the composed reader over that entry's payload, the
    metadata lookup returns the record built from that entry's header;
    both visit the entries up to the match and none after it; closing the
    composed reader closes the stream that was handed in. *)
Theorem lookup_found (reader : Stream) (tarPath : string)
    (pre post : list Pull) (m : Pull) (hdr : tar_Header) :
  stream_pulls reader = pre ++ m :: post ->
  forallb (passes tarPath) pre = true ->
  matches tarPath m = true ->
  pull_hdr m = Some hdr ->
  let entry := entryAt reader (seqAfter (-1) pre) hdr m in
  let result := {| tf_Reader := Reader entry; tf_Closer := reader |} in
  ReaderFromTar reader tarPath = (Some result, None)
  /\ served (tf_Reader result) = pull_body m
  /\ MetadataFromTar Metadata NewMetadata Metadata_zero reader tarPath
     = (NewMetadata hdr (metadataContent reader entry), None)
  /\ Name hdr = tarPath
  /\ snd (snd (IterateTar reader
                 (traced (readerVisitor reader tarPath)) (None, [])))
     = entriesFrom reader (-1) (pre ++ [m])
  /\ snd (snd (IterateTar reader
                 (traced (metadataVisitor Metadata NewMetadata reader tarPath))
                 (None, [])))
     = entriesFrom reader (-1) (pre ++ [m])
  /\ (forall closed : gset nat,
        tarFile_Close result closed = Stream_Close reader closed
        /\ stream_id reader ∈ snd (tarFile_Close result closed)).
Proof.
  intros Hpulls Hpre Hm Hh entry result.
  destruct (ReaderFromTar_found reader tarPath pre post m hdr
              Hpulls Hpre Hm Hh) as [Htr Hrun].
  destruct (MetadataFromTar_found reader tarPath pre post m hdr
              Hpulls Hpre Hm Hh) as [Htr' Hrun'].
  destruct (matches_inv _ _ Hm) as (_ & hdr' & Hh' & Hname).
  assert (hdr' = hdr) by congruence. subst hdr'.
  repeat split; try done.
  - by rewrite Htr.
  - by rewrite Htr'.
  - unfold tarFile_Close, Stream_Close. simpl. set_solver.
Qed.

(** C5. On a stream of well-formed pulls none of which carries the name
    [tarPath], both lookups return the not-found error with exactly
    [tarPath]; the iteration has then visited every entry of the stream
    and returned nil. An error of the iteration is returned in its place. *)
Theorem lookup_not_found (reader : Stream) (tarPath : string) :
  forallb (passes tarPath) (stream_pulls reader) = true ->
  ReaderFromTar reader tarPath = (None, Some (ErrFileNotFound tarPath))
  /\ MetadataFromTar Metadata NewMetadata Metadata_zero reader tarPath
     = (Metadata_zero, Some (ErrFileNotFound tarPath))
  /\ IterateTar reader (traced (readerVisitor reader tarPath)) (None, [])
     = (None, (None, entriesFrom reader (-1) (stream_pulls reader)))
  /\ IterateTar reader
       (traced (metadataVisitor Metadata NewMetadata reader tarPath))
       (None, [])
     = (None, (None, entriesFrom reader (-1) (stream_pulls reader)))
  /\ (forall (other : Stream) (err : error),
        fst (IterateTar other (readerVisitor other tarPath) None) = Some err ->
        ReaderFromTar other tarPath = (None, Some err))
  /\ (forall (other : Stream) (err : error),
        fst (IterateTar other
               (metadataVisitor Metadata NewMetadata other tarPath) None)
        = Some err ->
        MetadataFromTar Metadata NewMetadata Metadata_zero other tarPath
        = (Metadata_zero, Some err)).
Proof.
  intros Hall.
  destruct (ReaderFromTar_absent reader tarPath Hall) as [Htr Hrun].
  destruct (MetadataFromTar_absent reader tarPath Hall) as [Htr' Hrun'].
  repeat split; try done.
  - intros other err H.
    destruct (IterateTar other _ None) as [r st] eqn:Hit.
    simpl in H. subst r. by eapply ReaderFromTar_propagates.
  - intros other err H.
    destruct (IterateTar other _ None) as [r st] eqn:Hit.
    simpl in H. subst r. by eapply MetadataFromTar_propagates.
Qed.

(** C9. On an entry named [tarPath] the closure of the metadata lookup
    calls the constructor with the entry's header and with a content
    reader exactly when the declared size is greater than zero; for a
    size of zero it passes no reader. *)
Theorem metadata_reader_iff_size (reader : Stream) (tarPath : string)
    (entry : TarFileEntry) (metadata : option Metadata) :
  Name (Header entry) = tarPath ->
  metadataVisitor Metadata NewMetadata reader tarPath entry metadata
  = (Some ErrTarStopIteration,
     Some (NewMetadata (Header entry) (metadataContent reader entry)))
  /\ (is_Some (metadataContent reader entry) <-> 0 < Size (Header entry))
  /\ (Size (Header entry) = 0 -> metadataContent reader entry = None).
Proof.
  intros Hname. split; [by apply metadataVisitor_match|].
  unfold metadataContent.
  destruct (0 <? Size (Header entry)) eqn:Hs.
  - apply Z.ltb_lt in Hs. split; [|lia]. split; [done|eauto].
  - apply Z.ltb_ge in Hs. split; [|done].
    split; [intros [x Hx]; done|lia].
Qed.

(** C10. When the metadata lookup finds the entry and its declared size
    is greater than zero, the reader it hands to the constructor is the
    stream that the lookup was given, and not the reader of the entry
    (the decoder positioned at the entry's payload). *)
Theorem metadata_reader_is_stream (reader : Stream) (tarPath : string)
    (pre post : list Pull) (m : Pull) (hdr : tar_Header) :
  stream_pulls reader = pre ++ m :: post ->
  forallb (passes tarPath) pre = true ->
  matches tarPath m = true ->
  pull_hdr m = Some hdr ->
  0 < Size hdr ->
  let entry := entryAt reader (seqAfter (-1) pre) hdr m in
  MetadataFromTar Metadata NewMetadata Metadata_zero reader tarPath
  = (NewMetadata hdr (Some (StreamReader reader)), None)
  /\ metadataContent reader entry = Some (StreamReader reader)
  /\ StreamReader reader <> Reader entry.
Proof.
  intros Hpulls Hpre Hm Hh Hsize entry.
  destruct (MetadataFromTar_found reader tarPath pre post m hdr
              Hpulls Hpre Hm Hh) as [_ Hrun].
  assert (Hc : metadataContent reader entry = Some (StreamReader reader)).
  { unfold metadataContent. simpl.
    apply Z.ltb_lt in Hsize. by rewrite Hsize. }
  fold entry in Hrun. rewrite Hc in Hrun.
  repeat split; try done.
Qed.
End MetadataLookupProperties.

(** ** Extraction *)

(** C1. An entry whose joined target does not begin with the destination
    followed by the separator, and whose name is not ".", gets the
    path-traversal error that names it, and the visitor makes no call to
    the filesystem: its program is a bare return, and run on any capability
    it hands the state back as it was. *)
Theorem visit_rejects_traversal {F : Type} (v : tarVisitor F)
    (perFileReadLimit : Z) (entry : TarFileEntry) :
  HasPrefix (Join (destination v) (Name (Header entry)))
            (destination v +:+ PathSeparator) = false ->
  Name (Header entry) <> "." ->
  visit v perFileReadLimit entry
  = Ret (Some (ErrTraversal (Name (Header entry))))
  /\ (forall s : F,
        runVisit v perFileReadLimit entry s
        = (Some (ErrTraversal (Name (Header entry))), s)).
Proof.
  intros Hout Hname.
  assert (Hv : visit v perFileReadLimit entry
               = Ret (Some (ErrTraversal (Name (Header entry))))).
  { unfold visit. rewrite Hout.
    apply String.eqb_neq in Hname. by rewrite Hname. }
  split; [exact Hv|].
  intros s. unfold runVisit. by rewrite Hv.
Qed.

(** The program of the visitor for a symlink or a hard link. *)
Lemma visit_link {F : Type} (v : tarVisitor F) (perFileReadLimit : Z)
    (entry : TarFileEntry) :
  Typeflag (Header entry) = TypeSymlink \/ Typeflag (Header entry) = TypeLink ->
  visit v perFileReadLimit entry
  = Ret (if contained (destination v) entry then None
         else Some (ErrTraversal (Name (Header entry)))).
Proof.
  intros Hflag. unfold visit, contained.
  destruct (HasPrefix _ _); simpl.
  - by destruct Hflag as [-> | ->].
  - destruct (String.eqb (Name (Header entry)) "."); simpl; [|done].
    by destruct Hflag as [-> | ->].
Qed.

(** C7, as the code has it. For every symlink or hard-link entry the
    visitor makes no call to the filesystem, whatever the link points to;
    it returns nil, so that the extraction goes on, when the entry passes
    the containment check (its joined target lies under the destination, or
    its name is "."). *)
Theorem visit_skips_links {F : Type} (v : tarVisitor F)
    (perFileReadLimit : Z) (entry : TarFileEntry) :
  Typeflag (Header entry) = TypeSymlink \/ Typeflag (Header entry) = TypeLink ->
  (exists r, visit v perFileReadLimit entry = Ret r
             /\ forall s : F, runVisit v perFileReadLimit entry s = (r, s))
  /\ (contained (destination v) entry = true ->
      visit v perFileReadLimit entry = Ret None
      /\ forall s : F, runVisit v perFileReadLimit entry s = (None, s)).
Proof.
  intros Hflag. pose proof (visit_link v perFileReadLimit entry Hflag) as Hv.
  split.
  - eexists. split; [exact Hv|].
    intros s. unfold runVisit. by rewrite Hv.
  - intros Hin. rewrite Hin in Hv. split; [exact Hv|].
    intros s. unfold runVisit. by rewrite Hv.
Qed.

(** C8, as the code has it. For an entry named "." whose type flag is not
    that of a regular file (a directory in particular) the visitor returns
    nil and makes no call to the filesystem. *)
Theorem visit_dot_is_noop {F : Type} (v : tarVisitor F)
    (perFileReadLimit : Z) (entry : TarFileEntry) :
  Name (Header entry) = "." ->
  Typeflag (Header entry) <> TypeReg ->
  visit v perFileReadLimit entry = Ret None
  /\ (forall s : F, runVisit v perFileReadLimit entry s = (None, s)).
Proof.
  intros Hname Hflag.
  assert (Hv : visit v perFileReadLimit entry = Ret None).
  { unfold visit. rewrite Hname. simpl String.eqb.
    rewrite andb_false_r.
    destruct (Byte.eqb _ TypeSymlink || Byte.eqb _ TypeLink); [done|].
    destruct (Byte.eqb _ TypeDir); [done|].
    destruct (Byte.eqb (Typeflag (Header entry)) TypeReg) eqn:Hreg; [|done].
    apply Byte.byte_dec_bl in Hreg. done. }
  split; [exact Hv|].
  intros s. unfold runVisit. by rewrite Hv.
Qed.

(** *** Regular files on the in-memory filesystem *)

Lemma writeAt_end (old p : list byte) :
  writeAt old (length old) p = old ++ p.
Proof.
  unfold writeAt.
  rewrite firstn_all, Nat.sub_diag. simpl.
  rewrite drop_ge by lia. by rewrite app_nil_r.
Qed.

Lemma take_limit_split (l : list byte) (n : nat) (N : Z) :
  (n <= Z.to_nat N)%nat ->
  take (Z.to_nat N) l
  = take n l ++ take (Z.to_nat (N - Z.of_nat (length (take n l)))) (drop n l).
Proof.
  intros Hn. rewrite length_take.
  destruct (Nat.le_gt_cases n (length l)) as [Hle | Hgt].
  - rewrite Nat.min_l by lia.
    rewrite take_take_drop. f_equal. lia.
  - rewrite (drop_ge l n) by lia. rewrite take_nil, app_nil_r.
    rewrite !take_ge by lia. done.
Qed.

Lemma copyErr_step (fin : option error) (l : list byte) (n : nat) (N : Z) :
  (0 < n <= Z.to_nat N)%nat ->
  copyErr fin (length (drop n l)) (N - Z.of_nat (length (take n l)))
  = copyErr fin (length l) N.
Proof.
  intros Hn. unfold copyErr. rewrite length_take, length_drop.
  destruct (Z.of_nat (length l) <? N) eqn:H1;
    [apply Z.ltb_lt in H1 | apply Z.ltb_ge in H1].
  - replace (_ <? _) with true; [done|]. symmetry. apply Z.ltb_lt. lia.
  - replace (_ <? _) with false; [done|]. symmetry. apply Z.ltb_ge. lia.
Qed.

(** The copy loop on the in-memory filesystem, into a file open at its end:
    it appends the bytes of the payload up to the limit, counts them, and
    leaves the other paths alone. *)
Lemma copyLoop_mem (f : File) (name : string) (perm : Z) (fin : option error)
    (buf : nat) :
  (0 < buf)%nat ->
  forall (fuel : nat) (data : list byte) (N written : Z) (m : MemFs)
         (old : list byte),
    (length data < fuel)%nat ->
    opened m !! f = Some (name, length old) ->
    nodes m !! name = Some (FileNode perm old) ->
    exists m',
      run memFs
        (copyLoop fuel f
           {| lr_R := {| body_data := data; body_fin := fin |}; lr_N := N |}
           buf written) m
      = ((written + Z.of_nat (length (take (Z.to_nat N) data)),
          copyErr fin (length data) N), m')
      /\ opened m' !! f = Some (name, length (old ++ take (Z.to_nat N) data))
      /\ nodes m' !! name = Some (FileNode perm (old ++ take (Z.to_nat N) data))
      /\ (forall other, other <> name -> nodes m' !! other = nodes m !! other).
Proof.
  intros Hbuf fuel.
  induction fuel as [|fuel IH]; intros data N written m old Hfuel Hfd Hnode;
    [lia|].
  cbn [copyLoop]. unfold LimitedReader_Read. cbn [lr_N lr_R].
  destruct (N <=? 0) eqn:HN.
  - apply Z.leb_le in HN. cbn.
    replace (Z.to_nat N) with 0%nat by lia. rewrite take_0, app_nil_r.
    exists m. unfold copyErr.
    replace (Z.of_nat (length data) <? N) with false
      by (symmetry; apply Z.ltb_ge; lia).
    simpl. rewrite Z.add_0_r. auto.
  - apply Z.leb_gt in HN.
    set (n := if N <? Z.of_nat buf then Z.to_nat N else buf).
    assert (Hn : (0 < n)%nat /\ (n <= Z.to_nat N)%nat).
    { unfold n. destruct (N <? Z.of_nat buf) eqn:Hb; [lia|].
      apply Z.ltb_ge in Hb. lia. }
    unfold Body_Read. cbn [body_data body_fin].
    destruct data as [|b data].
    + cbn. exists m. rewrite take_nil, app_nil_r. unfold copyErr. simpl.
      replace (Z.of_nat 0 <? N) with true by (symmetry; apply Z.ltb_lt; lia).
      rewrite Z.add_0_r.
      split; [|auto]. by destruct fin.
    + set (l := b :: data) in *.
      assert (Hp : (0 < length (take n l))%nat).
      { rewrite length_take. unfold l. simpl length. lia. }
      replace (0 <? Z.of_nat (length (take n l))) with true
        by (symmetry; apply Z.ltb_lt; lia).
      cbn [run memFs Write]. unfold mem_Write. rewrite Hfd, Hnode.
      cbn [fst snd].
      replace (Z.of_nat (length (take n l)) <? 0) with false
        by (symmetry; apply Z.ltb_ge; lia).
      rewrite Z.ltb_irrefl. cbn [orb].
      rewrite Z.eqb_refl. cbn [negb afterRead].
      rewrite writeAt_end.
      destruct (IH (drop n l) (N - Z.of_nat (length (take n l)))
                  (written + Z.of_nat (length (take n l)))
                  {| nodes := <[name:=FileNode perm (old ++ take n l)]> (nodes m);
                     opened := <[f:=(name, (length old + length (take n l))%nat)]>
                                 (opened m);
                     next_fd := next_fd m |}
                  (old ++ take n l))
        as (m' & Hrun & Hfd' & Hnode' & Hother).
      { rewrite length_drop. unfold l in *. simpl length in *. lia. }
      { cbn [opened]. rewrite lookup_insert_eq, length_app. done. }
      { cbn [nodes]. by rewrite lookup_insert_eq. }
      exists m'.
      rewrite <- app_assoc, <- (take_limit_split l n N) in Hfd', Hnode' by lia.
      rewrite copyErr_step in Hrun by lia.
      rewrite Hrun. split; [|split; [done|split; [done|]]].
      * f_equal. f_equal. rewrite (take_limit_split l n N) by lia.
        rewrite length_app. lia.
      * intros other Hne. rewrite Hother by done.
        cbn [nodes]. by rewrite lookup_insert_ne.
Qed.

Lemma run_bind {F A B : Type} (impl : Fs F) (m : FsProg A) (g : A -> FsProg B)
    (s : F) :
  run impl (bind m g) s
  = let '(x, s') := run impl m s in run impl (g x) s'.
Proof.
  revert s. induction m as [r | name k IH | path perm k IH
                           | name flag perm k IH | f p k IH | f k IH];
    intros s; simpl; [by destruct (run impl (g r) s) | ..].
  - destruct (Stat impl name s) as [x s']. apply IH.
  - destruct (MkdirAll impl path perm s) as [x s']. apply IH.
  - destruct (OpenFile impl name flag perm s) as [x s']. apply IH.
  - destruct (Write impl f p s) as [x s']. apply IH.
  - destruct (Close impl f s) as [x s']. apply IH.
Qed.

Lemma bufSize_pos (src : LimitedReader) : (0 < bufSize src)%nat.
Proof.
  unfold bufSize.
  destruct (lr_N src <? 32 * 1024) eqn:H1; [|lia].
  destruct (lr_N src <? 1) eqn:H2; [lia|].
  apply Z.ltb_ge in H2. lia.
Qed.

(** The program of the visitor for a regular file that passes the
    containment check. *)
Lemma visit_regular {F : Type} (v : tarVisitor F) (perFileReadLimit : Z)
    (entry : TarFileEntry) :
  Typeflag (Header entry) = TypeReg ->
  contained (destination v) entry = true ->
  visit v perFileReadLimit entry
  = CallOpenFile (Join (destination v) (Name (Header entry)))
      (Z.lor O_CREATE O_RDWR) (FileMode (Mode (Header entry)))
      (fun opened =>
         match opened with
         | inr err => Ret (Some err)
         | inl f =>
             bind (io_Copy f (LimitReader (Reader entry) perFileReadLimit))
               (fun res =>
                  let '(numBytes, err) := res in
                  if (numBytes >=? perFileReadLimit) || is_err err EOF
                  then Ret (Some (ErrReadLimit numBytes perFileReadLimit))
                  else
                    match err with
                    | Some e => Ret (Some (ErrCopy e))
                    | None => CallClose f (fun _ => Ret None)
                    end)
         end).
Proof.
  intros Hflag Hin. unfold visit, contained in *.
  rewrite <- negb_orb, Hin, Hflag. reflexivity.
Qed.

(** C2, as the code has it. For a regular-file entry that passes the
    containment check, extracted onto the in-memory filesystem at a free
    path whose parent is a directory: when the content length reaches or
    exceeds the read limit the visitor fails with the bomb-limit error
    carrying the number of bytes copied and the limit; when the content is
    strictly shorter than the limit and is served in full, the visitor
    returns nil and the file at the target holds exactly the content, so
    its byte count is the content length; no other path changes. *)
Theorem visit_regular_file_limit (dst : string) (perFileReadLimit : Z)
    (entry : TarFileEntry) (m : MemFs) (perm : Z) :
  Typeflag (Header entry) = TypeReg ->
  contained dst entry = true ->
  let target := Join dst (Name (Header entry)) in
  let content := served (Reader entry) in
  let r := runVisit {| fs := memFs; destination := dst |}
             perFileReadLimit entry m in
  nodes m !! target = None ->
  nodes m !! parentDir target = Some (DirNode perm) ->
  (perFileReadLimit <= Z.of_nat (length (body_data content)) ->
     fst r = Some (ErrReadLimit (Z.max 0 perFileReadLimit) perFileReadLimit))
  /\ (Z.of_nat (length (body_data content)) < perFileReadLimit ->
      body_fin content = None ->
      fst r = None
      /\ nodes (snd r) !! target
         = Some (FileNode (FileMode (Mode (Header entry))) (body_data content))
      /\ forall other, other <> target ->
           nodes (snd r) !! other = nodes m !! other).
Proof.
  intros Hflag Hin target content r Hfree Hparent.
  unfold r, runVisit. cbn [fs].
  rewrite (visit_regular {| fs := memFs; destination := dst |} _ _ Hflag Hin).
  cbn [destination].
  fold target. cbn [run memFs OpenFile]. unfold mem_OpenFile.
  rewrite Hfree. change (Z.testbit (Z.lor O_CREATE O_RDWR) 6) with true.
  cbn iota. rewrite Hparent.
  rewrite run_bind. unfold io_Copy, LimitReader. cbn [lr_R lr_N].
  fold content. clearbody content. destruct content as [data fin].
  cbn [body_data body_fin].
  destruct (copyLoop_mem (next_fd m) target (FileMode (Mode (Header entry)))
              fin _ (bufSize_pos {| lr_R := {| body_data := data;
                                                body_fin := fin |};
                                    lr_N := perFileReadLimit |})
              (S (length data)) data perFileReadLimit 0
              {| nodes := <[target:=FileNode (FileMode (Mode (Header entry))) []]>
                            (nodes m);
                 opened := <[next_fd m:=(target, 0%nat)]> (opened m);
                 next_fd := S (next_fd m) |} [])
    as (m' & Hrun & Hfd' & Hnode' & Hother).
  { lia. }
  { cbn [opened]. by rewrite lookup_insert_eq. }
  { cbn [nodes]. by rewrite lookup_insert_eq. }
  rewrite Hrun. clear Hrun. cbn [app] in *. rewrite Z.add_0_l.
  rewrite Z.geb_leb. split.
  - intros Hover.
    replace (perFileReadLimit <=? _) with true.
    2:{ symmetry. apply Z.leb_le. rewrite length_take. lia. }
    cbn. f_equal. f_equal. rewrite length_take. lia.
  - intros Hunder Hfin. subst fin.
    rewrite take_ge in * by lia.
    replace (perFileReadLimit <=? _) with false
      by (symmetry; apply Z.leb_gt; lia).
    unfold copyErr.
    replace (Z.of_nat (length data) <? perFileReadLimit) with true
      by (symmetry; apply Z.ltb_lt; lia).
    cbn [orb is_err run memFs Close]. unfold mem_Close. rewrite Hfd'.
    cbn [fst snd nodes]. split; [done|]. split; [done|].
    intros other Hne. rewrite Hother by done.
    cbn [nodes]. by rewrite lookup_insert_ne.
Qed.

(** ** The properties at concrete inputs *)

(** C1 at the entry [../escape]: the joined target is [/escape]. *)
Lemma visit_rejects_traversal_witness :
  runVisit outVisitor (2 * 2 ^ 30) (mkEntry TypeReg "../escape" bytes_hi) outFs
  = (Some (ErrTraversal "../escape"), outFs).
Proof.
  apply (proj2 (visit_rejects_traversal outVisitor (2 * 2 ^ 30)
                  (mkEntry TypeReg "../escape" bytes_hi)
                  eq_refl ltac:(discriminate))).
Defined.

(** C2 at a file of two bytes under a limit of three. *)
Lemma visit_regular_file_limit_witness :
  let r := runVisit outVisitor 3 (mkEntry TypeReg "a.txt" bytes_hi) outFs in
  fst r = None
  /\ nodes (snd r) !! "/out/a.txt" = Some (FileNode 420 bytes_hi).
Proof.
  destruct (visit_regular_file_limit "/out" 3
              (mkEntry TypeReg "a.txt" bytes_hi) outFs 493
              eq_refl eq_refl eq_refl eq_refl) as [_ H].
  destruct (H ltac:(simpl; lia) eq_refl) as (H1 & H2 & _).
  split; [exact H1 | exact H2].
Defined.

(** C2 fails at the limit: a file of exactly two bytes under a limit of two
    is at the limit, and the visitor returns the bomb-limit error. *)
Lemma regular_file_at_limit_is_refused :
  let entry := mkEntry TypeReg "a.txt" bytes_hi in
  Typeflag (Header entry) = TypeReg
  /\ Z.of_nat (length (body_data (served (Reader entry)))) <= 2
  /\ fst (runVisit outVisitor 2 entry outFs) = Some (ErrReadLimit 2 2)
  /\ fst (runVisit outVisitor 2 entry outFs) <> None.
Proof. vm_compute. repeat split; discriminate. Qed.

(** C3 on the stream of three entries. *)
Lemma IterateTar_visits_every_entry_witness :
  IterateTar threeEntries (traced countVisitor) (0%nat, [])
  = (None, (3%nat, entriesFrom threeEntries (-1) (stream_pulls threeEntries)))
  /\ map Sequence (entriesFrom threeEntries (-1) (stream_pulls threeEntries))
     = [0; 1; 2].
Proof.
  destruct (IterateTar_visits_every_entry threeEntries countVisitor 0%nat
              eq_refl ltac:(simpl; lia) ltac:(reflexivity))
    as (H1 & _ & _ & H2 & _).
  split; [exact H1 | exact H2].
Defined.

(** C4 for the second of the three entries. *)
Lemma lookup_found_witness :
  ReaderFromTar threeEntries "a/b.txt"
  = (Some {| tf_Reader := TarReader threeEntries
                            {| body_data := bytes_hi; body_fin := None |};
             tf_Closer := threeEntries |}, None)
  /\ fst (MetadataFromTar _ keepArgs noArgs threeEntries "a/b.txt")
     = (Header (mkEntry TypeReg "a/b.txt" bytes_hi),
        Some (StreamReader threeEntries)).
Proof.
  destruct (lookup_found _ keepArgs noArgs threeEntries "a/b.txt"
              [mkPull TypeDir "a/" []] [mkPull TypeReg "c" []]
              (mkPull TypeReg "a/b.txt" bytes_hi) _
              eq_refl eq_refl eq_refl eq_refl)
    as (H1 & _ & H2 & _).
  split; [exact H1 | rewrite H2; reflexivity].
Defined.

(** C5 for a path that is not in the stream. *)
Lemma lookup_not_found_witness :
  ReaderFromTar threeEntries "missing"
  = (None, Some (ErrFileNotFound "missing"))
  /\ MetadataFromTar _ keepArgs noArgs threeEntries "missing"
     = (noArgs, Some (ErrFileNotFound "missing")).
Proof.
  destruct (lookup_not_found _ keepArgs noArgs threeEntries "missing" eq_refl)
    as (H1 & H2 & _).
  split; [exact H1 | exact H2].
Defined.

(** C6 for a visitor that fails on the second of the three entries. *)
Lemma IterateTar_visitor_error_witness :
  IterateTar threeEntries (failOn "a/b.txt") 0%nat
  = (Some (ErrVisit "a/b.txt" (ErrExternal "boom")), 1%nat).
Proof.
  assert (Hpre : continuesThrough threeEntries (failOn "a/b.txt") (-1) 0%nat
                   [mkPull TypeDir "a/" []] 1%nat).
  { eapply through_visit; [reflexivity | reflexivity | reflexivity |].
    apply through_nil. }
  destruct (IterateTar_visitor_error threeEntries (failOn "a/b.txt")
              [mkPull TypeDir "a/" []] [mkPull TypeReg "c" []]
              (mkPull TypeReg "a/b.txt" bytes_hi) _ 0%nat 1%nat 1%nat
              (ErrExternal "boom") eq_refl Hpre eq_refl eq_refl eq_refl)
    as (H & _ & _).
  exact (proj1 (H eq_refl)).
Defined.

(** C7 at a symlink under the destination. *)
Lemma visit_skips_links_witness :
  runVisit outVisitor (2 * 2 ^ 30) (linkEntry "a/link") outFs
  = (None, outFs).
Proof.
  destruct (visit_skips_links outVisitor (2 * 2 ^ 30)
              (linkEntry "a/link") (or_introl eq_refl))
    as [_ H].
  exact (proj2 (H eq_refl) outFs).
Defined.

(** C7 fails for a link whose name leaves the destination: the visitor
    returns the path-traversal error, not nil. *)
Lemma link_outside_destination_is_refused :
  let entry := linkEntry "../escape" in
  Typeflag (Header entry) = TypeSymlink
  /\ runVisit outVisitor (2 * 2 ^ 30) entry outFs
     = (Some (ErrTraversal "../escape"), outFs)
  /\ fst (runVisit outVisitor (2 * 2 ^ 30) entry outFs) <> None.
Proof. repeat split. discriminate. Qed.

(** C8 at a directory entry named ".". *)
Lemma visit_dot_is_noop_witness :
  runVisit outVisitor (2 * 2 ^ 30) (mkEntry TypeDir "." []) outFs
  = (None, outFs).
Proof.
  apply (proj2 (visit_dot_is_noop outVisitor (2 * 2 ^ 30)
                  (mkEntry TypeDir "." []) eq_refl ltac:(discriminate))).
Defined.

(** C8 fails for a regular-file entry named ".": the visitor opens the
    destination itself for writing. Where the destination is a directory
    the call fails and the visitor returns its error; where the
    destination does not exist yet, a file is created in its place. *)
Lemma dot_regular_file_is_opened :
  let entry := mkEntry TypeReg "." bytes_hi in
  let fresh := {| fs := memFs; destination := "/out/new" |} in
  Name (Header entry) = "."
  /\ match visit outVisitor (2 * 2 ^ 30) entry with
     | CallOpenFile name flag _ _ => name = "/out" /\ flag = 66
     | _ => False
     end
  /\ fst (runVisit outVisitor (2 * 2 ^ 30) entry outFs) = Some EISDIR
  /\ nodes outFs !! "/out/new" = None
  /\ nodes (snd (runVisit fresh (2 * 2 ^ 30) entry outFs)) !! "/out/new"
     = Some (FileNode 420 bytes_hi).
Proof. vm_compute. repeat split. Qed.

(** C9 at an entry of two bytes, with a constructor that keeps what it is
    handed. *)
Lemma metadata_reader_iff_size_witness :
  metadataVisitor _ keepArgs threeEntries "a/b.txt"
    (mkEntry TypeReg "a/b.txt" bytes_hi) None
  = (Some ErrTarStopIteration,
     Some (Header (mkEntry TypeReg "a/b.txt" bytes_hi),
           Some (StreamReader threeEntries))).
Proof.
  exact (proj1 (metadata_reader_iff_size _ keepArgs threeEntries "a/b.txt"
                  (mkEntry TypeReg "a/b.txt" bytes_hi) None eq_refl)).
Defined.

(** C10 for the second of the three entries. *)
Lemma metadata_reader_is_stream_witness :
  MetadataFromTar _ keepArgs noArgs threeEntries "a/b.txt"
  = (keepArgs (Header (mkEntry TypeReg "a/b.txt" bytes_hi))
       (Some (StreamReader threeEntries)), None).
Proof.
  exact (proj1 (metadata_reader_is_stream _ keepArgs noArgs threeEntries
                  "a/b.txt" [mkPull TypeDir "a/" []] [mkPull TypeReg "c" []]
                  (mkPull TypeReg "a/b.txt" bytes_hi) _
                  eq_refl eq_refl eq_refl eq_refl ltac:(simpl; lia))).
Defined.

(** * Further properties *)

(** ** The loop, for any visitor *)

(** The traced visitor changes nothing for the loop, and what it records is
    an initial part of the entries that the pulls hold. *)
Lemma iterate_traced {V : Type} (reader : Stream) (visitor : TarFileVisitor V)
    (pulls : list Pull) (k : Z) (s : V) (seen : list TarFileEntry) :
  exists visited later,
    entriesFrom reader k pulls = visited ++ later
    /\ iterate reader pulls k (traced visitor) (s, seen)
       = (fst (iterate reader pulls k visitor s),
          (snd (iterate reader pulls k visitor s), seen ++ visited)).
Proof.
  revert k s seen. induction pulls as [|p pulls IH]; intros k s seen.
  - exists [], []. simpl. by rewrite app_nil_r.
  - simpl. destruct (is_err (pull_err p) EOF).
    { exists [], (entriesFrom reader k (p :: pulls)).
      simpl. by rewrite app_nil_r. }
    destruct (pull_err p) as [err|].
    { exists [], (entriesFrom reader k (p :: pulls)).
      simpl. by rewrite app_nil_r. }
    destruct (pull_hdr p) as [hdr|]; [|apply IH].
    unfold traced at 1. simpl.
    destruct (visitor _ s) as [[err|] s1] eqn:Hv.
    + eexists [_], _. split; [reflexivity|].
      by destruct (errors_Is err ErrTarStopIteration).
    + destruct (IH (wrap64 (k + 1)) s1
                  (seen ++ [{| Sequence := wrap64 (k + 1); Header := hdr;
                               Reader := TarReader reader (pull_body p) |}]))
        as (visited & later & Hsplit & Hrun).
      eexists (_ :: visited), later. split.
      * simpl. by rewrite Hsplit.
      * rewrite Hrun. by rewrite <- app_assoc.
Qed.

(** The entries numbered from a counter in range carry the index of their
    pull, counted from the counter. *)
Lemma entriesFrom_index (reader : Stream) (pulls : list Pull) (k : Z)
    (e : TarFileEntry) :
  - 2 ^ 63 <= k + 1 ->
  k + Z.of_nat (length pulls) < 2 ^ 63 ->
  e ∈ entriesFrom reader k pulls ->
  k < Sequence e
  /\ exists p, pulls !! Z.to_nat (Sequence e - k - 1) = Some p
               /\ pull_hdr p = Some (Header e)
               /\ Reader e = TarReader reader (pull_body p).
Proof.
  revert k. induction pulls as [|p pulls IH]; intros k Hlo Hhi Hin.
  - simpl in Hin. by apply elem_of_nil in Hin.
  - simpl in Hin. simpl length in Hhi.
    rewrite wrap64_small in Hin by lia.
    assert (Hrest : e ∈ entriesFrom reader (k + 1) pulls ->
              k < Sequence e
              /\ exists p0, (p :: pulls) !! Z.to_nat (Sequence e - k - 1) = Some p0
                            /\ pull_hdr p0 = Some (Header e)
                            /\ Reader e = TarReader reader (pull_body p0)).
    { intros Hin'. destruct (IH (k + 1) ltac:(lia) ltac:(lia) Hin')
        as (Hlt & p0 & Hp0 & Hh & Hr).
      split; [lia|]. exists p0. split; [|done].
      replace (Z.to_nat (Sequence e - k - 1))
        with (S (Z.to_nat (Sequence e - (k + 1) - 1))) by lia.
      exact Hp0. }
    destruct (pull_hdr p) as [hdr|] eqn:Hh; [|by apply Hrest].
    apply elem_of_cons in Hin as [-> | Hin]; [|by apply Hrest].
    simpl. split; [lia|]. exists p.
    replace (Z.to_nat (k + 1 - k - 1)) with 0%nat by lia. done.
Qed.

(** X: order of the calls. *)
(** X2. For any stream and any visitor, whether the loop ends by itself, by
    the stop sentinel or by an error: the entries handed to the visitor are
    an initial part of the entries of the stream, in stream order, each
    once. Recording the calls changes neither the error returned nor the
    visitor's state. *)
Theorem IterateTar_visits_in_order {V : Type} (reader : Stream)
    (visitor : TarFileVisitor V) (s : V) :
  let r := IterateTar reader (traced visitor) (s, []) in
  fst r = fst (IterateTar reader visitor s)
  /\ fst (snd r) = snd (IterateTar reader visitor s)
  /\ snd (snd r) `prefix_of` entriesFrom reader (-1) (stream_pulls reader).
Proof.
  intros r. unfold r, IterateTar.
  destruct (iterate_traced reader visitor (stream_pulls reader) (-1) s [])
    as (visited & later & Hsplit & Hrun).
  rewrite Hrun. simpl. repeat split.
  exists later. exact Hsplit.
Qed.

(** X3. Every entry handed to the visitor carries as [Sequence] the index
    of the pull that produced it, counted from 0 over all the pulls, those
    with a nil header included; its header and reader are that pull's. So
    a nil header leaves a gap in the sequence numbers. (The stream is within
    the range of the int64 counter.) *)
Theorem Sequence_is_pull_index {V : Type} (reader : Stream)
    (visitor : TarFileVisitor V) (s : V) (e : TarFileEntry) :
  Z.of_nat (length (stream_pulls reader)) <= 2 ^ 63 ->
  e ∈ snd (snd (IterateTar reader (traced visitor) (s, []))) ->
  0 <= Sequence e
  /\ exists p, stream_pulls reader !! Z.to_nat (Sequence e) = Some p
               /\ pull_hdr p = Some (Header e)
               /\ Reader e = TarReader reader (pull_body p).
Proof.
  intros Hlen Hin. unfold IterateTar in Hin.
  destruct (iterate_traced reader visitor (stream_pulls reader) (-1) s [])
    as (visited & later & Hsplit & Hrun).
  rewrite Hrun in Hin. simpl in Hin.
  assert (Hin' : e ∈ entriesFrom reader (-1) (stream_pulls reader)).
  { rewrite Hsplit. apply elem_of_app. by left. }
  destruct (entriesFrom_index reader (stream_pulls reader) (-1) e
              ltac:(lia) ltac:(lia) Hin')
    as (Hlt & p & Hp & Hh & Hr).
  split; [lia|]. exists p. split; [|done].
  replace (Z.to_nat (Sequence e)) with (Z.to_nat (Sequence e - -1 - 1)) by lia.
  exact Hp.
Qed.

(** The run of [IterateTar] up to a pull that fails, plain and traced. *)
Lemma IterateTar_at_failed_pull {V : Type} (reader : Stream)
    (visitor : TarFileVisitor V) (pre rest : list Pull) (p : Pull)
    (s s1 : V) (err : error) :
  stream_pulls reader = pre ++ p :: rest ->
  continuesThrough reader visitor (-1) s pre s1 ->
  pull_err p = Some err ->
  IterateTar reader visitor s
  = (if errors_Is err EOF then None else Some err, s1)
  /\ IterateTar reader (traced visitor) (s, [])
     = (if errors_Is err EOF then None else Some err,
        (s1, entriesFrom reader (-1) pre)).
Proof.
  intros Hpulls Hpre He. unfold IterateTar. rewrite Hpulls. split.
  - rewrite (iterate_through reader visitor pre (p :: rest) (-1) s s1 Hpre).
    simpl. rewrite He. simpl. by destruct (errors_Is err EOF).
  - rewrite (iterate_through reader (traced visitor) pre (p :: rest) (-1)
               (s, []) _ (through_traced reader visitor pre (-1) s s1 [] Hpre)).
    simpl. rewrite He. simpl. by destruct (errors_Is err EOF).
Qed.

(** X4. When the loop has gone through the pulls before a pull that
    fails, [IterateTar] returns the decoder's error as it is, not wrapped,
    and the visitor is called neither for that pull, whatever header it
    carries, nor for a later one; an error that is [io.EOF] or wraps it
    ends the loop with nil instead. *)
Theorem IterateTar_decode_error {V : Type} (reader : Stream)
    (visitor : TarFileVisitor V) (pre rest : list Pull) (p : Pull)
    (s s1 : V) (err : error) :
  stream_pulls reader = pre ++ p :: rest ->
  continuesThrough reader visitor (-1) s pre s1 ->
  pull_err p = Some err ->
  IterateTar reader visitor s
  = (if errors_Is err EOF then None else Some err, s1)
  /\ snd (snd (IterateTar reader (traced visitor) (s, [])))
     = entriesFrom reader (-1) pre.
Proof.
  intros Hpulls Hpre He.
  destruct (IterateTar_at_failed_pull reader visitor pre rest p s s1 err
              Hpulls Hpre He) as [Hrun Htr].
  split; [exact Hrun|]. by rewrite Htr.
Qed.

Lemma errors_Is_refl (e : error) : errors_Is e e = true.
Proof. destruct e; cbn [errors_Is]; by rewrite bool_decide_true. Qed.

Lemma errors_Is_ErrVisit (name : string) (e : error) :
  errors_Is (ErrVisit name e) e = true.
Proof.
  change (bool_decide (ErrVisit name e = e) || errors_Is e e = true).
  rewrite errors_Is_refl. apply orb_true_r.
Qed.


(** ** The lookups, on any stream *)

(** A visitor of the shape of the two lookup closures: it stops with
    [found entry] at an entry named [tarPath] and passes every other entry.
    From the state nil, the loop ends at the first pull that carries the
    name or fails, or goes through all the pulls. *)
Lemma iterate_lookup_cases {A : Type} (reader : Stream) (tarPath : string)
    (found : TarFileEntry -> A) (visitor : TarFileVisitor (option A)) :
  (forall e s,
     visitor e s
     = if String.eqb (Name (Header e)) tarPath
       then (Some ErrTarStopIteration, Some (found e)) else (None, s)) ->
  forall (pulls : list Pull) (k : Z),
    (exists pre m post hdr,
       pulls = pre ++ m :: post
       /\ forallb (passes tarPath) pre = true
       /\ matches tarPath m = true
       /\ pull_hdr m = Some hdr
       /\ iterate reader pulls k visitor None
          = (None, Some (found (entryAt reader (seqAfter k pre) hdr m))))
    \/ (exists pre m post err,
          pulls = pre ++ m :: post
          /\ forallb (passes tarPath) pre = true
          /\ pull_err m = Some err
          /\ iterate reader pulls k visitor None
             = (if errors_Is err EOF then None else Some err, None))
    \/ (forallb (passes tarPath) pulls = true
        /\ iterate reader pulls k visitor None = (None, None)).
Proof.
  intros Hshape pulls. induction pulls as [|p pulls IH]; intros k.
  - right. right. done.
  - destruct (pull_err p) as [err|] eqn:He.
    { right. left. exists [], p, pulls, err. repeat split; try done.
      simpl. rewrite He. simpl. by destruct (errors_Is err EOF). }
    assert (Hpass : passes tarPath p = true ->
              iterate reader (p :: pulls) k visitor None
              = iterate reader pulls (wrap64 (k + 1)) visitor None).
    { intros Hp. unfold passes in Hp. rewrite He in Hp. simpl.
      rewrite He. simpl.
      destruct (pull_hdr p) as [hdr|]; [|done].
      rewrite Hshape. simpl.
      apply negb_true_iff in Hp. by rewrite Hp. }
    destruct (passes tarPath p) eqn:Hp.
    + rewrite (Hpass eq_refl).
      destruct (IH (wrap64 (k + 1)))
        as [(pre & m & post & hdr & -> & Hpre & Hm & Hh & Hrun)
           | [(pre & m & post & err & -> & Hpre & Hm & Hrun)
             | (Hall & Hrun)]].
      * left. exists (p :: pre), m, post, hdr.
        repeat split; try done. simpl. by rewrite Hp.
      * right. left. exists (p :: pre), m, post, err.
        repeat split; try done. simpl. by rewrite Hp.
      * right. right. split; [|done]. simpl. by rewrite Hp.
    + unfold passes in Hp. rewrite He in Hp.
      destruct (pull_hdr p) as [hdr|] eqn:Hh; [|done].
      apply negb_false_iff in Hp.
      left. exists [], p, pulls, hdr. repeat split; try done.
      * unfold matches. by rewrite He, Hh.
      * simpl. rewrite He, Hh. simpl. rewrite Hshape. simpl.
        by rewrite Hp.
Qed.

Lemma readerVisitor_shape (reader : Stream) (tarPath : string)
    (e : TarFileEntry) (s : option tarFile) :
  readerVisitor reader tarPath e s
  = if String.eqb (Name (Header e)) tarPath
    then (Some ErrTarStopIteration,
          Some {| tf_Reader := Reader e; tf_Closer := reader |})
    else (None, s).
Proof. reflexivity. Qed.

(** X7. When the content lookup returns a reader, the stream holds an
    entry named [tarPath]; the pulls before the first such entry are well
    formed, and the reader returned is the decoder positioned at that first
    entry's payload, with the stream handed in as its closer. *)
Theorem ReaderFromTar_sound (reader : Stream) (tarPath : string)
    (result : tarFile) :
  ReaderFromTar reader tarPath = (Some result, None) ->
  exists pre m post hdr,
    stream_pulls reader = pre ++ m :: post
    /\ forallb (passes tarPath) pre = true
    /\ matches tarPath m = true
    /\ pull_hdr m = Some hdr
    /\ Name hdr = tarPath
    /\ result = {| tf_Reader := TarReader reader (pull_body m);
                   tf_Closer := reader |}.
Proof.
  unfold ReaderFromTar, IterateTar. intros H.
  destruct (iterate_lookup_cases reader tarPath _ _
              (readerVisitor_shape reader tarPath) (stream_pulls reader) (-1))
    as [(pre & m & post & hdr & Hpulls & Hpre & Hm & Hh & Hrun)
       | [(pre & m & post & err & Hpulls & Hpre & Hm & Hrun)
         | (Hall & Hrun)]];
    rewrite Hrun in H.
  - exists pre, m, post, hdr. repeat split; try done.
    + destruct (matches_inv _ _ Hm) as (_ & hdr' & Hh' & Hname). congruence.
    + simpl in H. congruence.
  - by destruct (errors_Is err EOF).
  - done.
Qed.

(** The content lookup on a stream whose first pull that fails or carries
    the name is one that fails. *)
Lemma ReaderFromTar_at_failed_pull (reader : Stream) (tarPath : string)
    (pre rest : list Pull) (p : Pull) (err : error) :
  stream_pulls reader = pre ++ p :: rest ->
  forallb (passes tarPath) pre = true ->
  pull_err p = Some err ->
  ReaderFromTar reader tarPath
  = (None, Some (if errors_Is err EOF then ErrFileNotFound tarPath else err)).
Proof.
  intros Hpulls Hpre He.
  pose proof (through_passes reader _ tarPath
                (readerVisitor_other reader tarPath) pre (-1) None Hpre)
    as Hthrough.
  destruct (IterateTar_at_failed_pull reader _ pre rest p None None err
              Hpulls Hthrough He) as [Hrun _].
  unfold ReaderFromTar. rewrite Hrun.
  by destruct (errors_Is err EOF).
Qed.

Section MoreMetadataLookupProperties.
Variable Metadata : Type.
Variable NewMetadata : tar_Header -> option ioReader -> Metadata.
Variable Metadata_zero : Metadata.

Lemma metadataVisitor_shape (reader : Stream) (tarPath : string)
    (e : TarFileEntry) (s : option Metadata) :
  metadataVisitor Metadata NewMetadata reader tarPath e s
  = if String.eqb (Name (Header e)) tarPath
    then (Some ErrTarStopIteration,
          Some (NewMetadata (Header e) (metadataContent reader e)))
    else (None, s).
Proof. reflexivity. Qed.

(** The two loops end alike: with the same error, and with a result or
    without one together. *)
Lemma iterate_lookups_alike (reader : Stream) (tarPath : string)
    (pulls : list Pull) (k : Z) :
  fst (iterate reader pulls k (readerVisitor reader tarPath) None)
  = fst (iterate reader pulls k
           (metadataVisitor Metadata NewMetadata reader tarPath) None)
  /\ (snd (iterate reader pulls k (readerVisitor reader tarPath) None) = None
      <-> snd (iterate reader pulls k
                 (metadataVisitor Metadata NewMetadata reader tarPath) None)
          = None).
Proof.
  revert k. induction pulls as [|p pulls IH]; intros k; [done|].
  simpl. destruct (is_err (pull_err p) EOF); [done|].
  destruct (pull_err p); [done|].
  destruct (pull_hdr p) as [hdr|]; [|apply IH].
  unfold readerVisitor at 1 3, metadataVisitor at 1 3. simpl.
  destruct (String.eqb (Name hdr) tarPath); [|apply IH].
  simpl. split; [done|]. split; intros H; discriminate H.
Qed.

(** X6. On every stream and for every path the two lookups return the
    same error (nil, not-found or the error of the iteration); the content
    lookup returns a reader exactly when its error is nil. *)
Theorem lookups_fail_alike (reader : Stream) (tarPath : string) :
  snd (ReaderFromTar reader tarPath)
  = snd (MetadataFromTar Metadata NewMetadata Metadata_zero reader tarPath)
  /\ (is_Some (fst (ReaderFromTar reader tarPath))
      <-> snd (ReaderFromTar reader tarPath) = None).
Proof.
  unfold ReaderFromTar, MetadataFromTar, IterateTar.
  destruct (iterate_lookups_alike reader tarPath (stream_pulls reader) (-1))
    as [Herr Hres].
  destruct (iterate reader _ _ (readerVisitor reader tarPath) None)
    as [[e1|] [r1|]];
  destruct (iterate reader _ _ (metadataVisitor _ _ reader tarPath) None)
    as [[e2|] [r2|]]; simpl in *; try discriminate Herr;
    try (by destruct Hres as [H1 H2]; (discriminate (H1 eq_refl) || discriminate (H2 eq_refl)));
    (split; [congruence|]); split; intros H; try done;
    try (destruct H as [? H]; discriminate H); eauto.
Qed.

(** X9. When the first pull that fails or carries the name [tarPath] is a
    pull that fails, both lookups return the decoder's error as it is,
    unwrapped, and no result; unless the error is [io.EOF] or wraps it, in
    which case the stream counts as ended and both return the not-found
    error. *)
Theorem lookups_at_failed_pull (reader : Stream) (tarPath : string)
    (pre rest : list Pull) (p : Pull) (err : error) :
  stream_pulls reader = pre ++ p :: rest ->
  forallb (passes tarPath) pre = true ->
  pull_err p = Some err ->
  ReaderFromTar reader tarPath
  = (None, Some (if errors_Is err EOF then ErrFileNotFound tarPath else err))
  /\ MetadataFromTar Metadata NewMetadata Metadata_zero reader tarPath
     = (Metadata_zero,
        Some (if errors_Is err EOF then ErrFileNotFound tarPath else err)).
Proof.
  intros Hpulls Hpre He.
  split; [by eapply ReaderFromTar_at_failed_pull|].
  pose proof (through_passes reader _ tarPath
                (metadataVisitor_other Metadata NewMetadata reader tarPath)
                pre (-1) None Hpre)
    as Hthrough.
  destruct (IterateTar_at_failed_pull reader _ pre rest p None None err
              Hpulls Hthrough He) as [Hrun _].
  unfold MetadataFromTar. rewrite Hrun.
  by destruct (errors_Is err EOF).
Qed.

(** X8. When the metadata lookup returns without an error, the stream
    holds an entry named [tarPath]; the pulls before the first such entry
    are well formed, and the record returned is the one the constructor
    built from that first entry's header, with the stream as content reader
    when the declared size is positive and none otherwise. *)
Theorem MetadataFromTar_sound (reader : Stream) (tarPath : string)
    (metadata : Metadata) :
  MetadataFromTar Metadata NewMetadata Metadata_zero reader tarPath
  = (metadata, None) ->
  exists pre m post hdr,
    stream_pulls reader = pre ++ m :: post
    /\ forallb (passes tarPath) pre = true
    /\ matches tarPath m = true
    /\ pull_hdr m = Some hdr
    /\ Name hdr = tarPath
    /\ metadata
       = NewMetadata hdr
           (if 0 <? Size hdr then Some (StreamReader reader) else None).
Proof.
  unfold MetadataFromTar, IterateTar. intros H.
  destruct (iterate_lookup_cases reader tarPath _ _
              (metadataVisitor_shape reader tarPath)
              (stream_pulls reader) (-1))
    as [(pre & m & post & hdr & Hpulls & Hpre & Hm & Hh & Hrun)
       | [(pre & m & post & err & Hpulls & Hpre & Hm & Hrun)
         | (Hall & Hrun)]];
    rewrite Hrun in H.
  - exists pre, m, post, hdr. repeat split; try done.
    + destruct (matches_inv _ _ Hm) as (_ & hdr' & Hh' & Hname). congruence.
    + simpl in H. unfold metadataContent in H. simpl in H. congruence.
  - by destruct (errors_Is err EOF).
  - done.
Qed.
End MoreMetadataLookupProperties.

(** ** The extraction visitor, on any capability *)

Lemma confined_more {R : Type} (P : string -> Prop) (files files' : list File)
    (m : FsProg R) :
  confined P files m ->
  files ⊆ files' ->
  confined P files' m.
Proof.
  intros H. revert files'.
  induction H as [files r | files name k HP _ IH | files path perm k HP _ IH
                 | files name flag perm k HP _ IHl _ IHr
                 | files f p k Hf _ IH | files f k Hf _ IH];
    intros files' Hsub.
  - constructor.
  - constructor; auto.
  - constructor; auto.
  - constructor; auto. intros f. apply IHl.
    intros f' Hin. apply elem_of_cons in Hin as [->|Hin];
      apply elem_of_cons; [by left|right; by apply Hsub].
  - constructor; auto.
  - constructor; auto.
Qed.

Lemma confined_bind {A B : Type} (P : string -> Prop) (files : list File)
    (m : FsProg A) (g : A -> FsProg B) :
  confined P files m ->
  (forall x, confined P files (g x)) ->
  confined P files (bind m g).
Proof.
  intros H. revert g.
  induction H as [files r | files name k HP _ IH | files path perm k HP _ IH
                 | files name flag perm k HP _ IHl _ IHr
                 | files f p k Hf _ IH | files f k Hf _ IH];
    intros g Hg; simpl.
  - apply Hg.
  - constructor; auto.
  - constructor; auto.
  - constructor; auto. intros f. apply IHl.
    intros x. eapply confined_more; [apply Hg|].
    intros f' Hin. apply elem_of_cons. by right.
  - constructor; auto.
  - constructor; auto.
Qed.

Lemma confined_afterRead (P : string -> Prop) (files : list File)
    (er : option error) (written : Z) (again : FsProg (Z * option error)) :
  confined P files again ->
  confined P files (afterRead er written again).
Proof. intros H. destruct er; [constructor|exact H]. Qed.

Lemma confined_copyLoop (P : string -> Prop) (files : list File) (f : File)
    (buf : nat) (fuel : nat) (src : LimitedReader) (written : Z) :
  f ∈ files ->
  confined P files (copyLoop fuel f src buf written).
Proof.
  intros Hf. revert src written.
  induction fuel as [|fuel IH]; intros src written; [constructor|].
  cbn [copyLoop].
  destruct (LimitedReader_Read src buf) as [[p er] src'].
  destruct (0 <? Z.of_nat (length p)).
  - constructor; [exact Hf|]. intros res.
    destruct (if (fst res <? 0) || (Z.of_nat (length p) <? fst res)
              then (0, Some (default ErrInvalidWrite (snd res))) else res)
      as [nw [e|]]; [constructor|].
    destruct (negb (Z.of_nat (length p) =? nw)); [constructor|].
    apply confined_afterRead, IH.
  - apply confined_afterRead, IH.
Qed.

(** X11. Whatever the entry and whatever the capability answers, the only
    path that the visitor hands to the capability is the joined target,
    which begins with the destination followed by the separator unless the
    entry is named "."; and it writes to and closes no file but the one it
    has opened at that path. *)
Theorem visit_stays_under_destination {F : Type} (v : tarVisitor F)
    (perFileReadLimit : Z) (entry : TarFileEntry) :
  confined
    (fun path =>
       path = Join (destination v) (Name (Header entry))
       /\ (Name (Header entry) <> "." ->
           HasPrefix path (destination v +:+ PathSeparator) = true))
    [] (visit v perFileReadLimit entry).
Proof.
  unfold visit.
  destruct (HasPrefix _ _) eqn:Hin; simpl.
  - assert (HP : Join (destination v) (Name (Header entry))
                 = Join (destination v) (Name (Header entry))
                 /\ (Name (Header entry) <> "." ->
                     HasPrefix (Join (destination v) (Name (Header entry)))
                       (destination v +:+ PathSeparator) = true)) by done.
    destruct (_ || _); [constructor|].
    destruct (Byte.eqb _ TypeDir).
    { destruct (String.eqb _ "."); [constructor|].
      constructor; [exact HP|]. intros [e|]; [|constructor].
      constructor; [exact HP|]. intros [e'|]; constructor. }
    destruct (Byte.eqb _ TypeReg); [|constructor].
    constructor; [exact HP| |intros err; constructor].
    intros f. apply confined_bind.
    + apply confined_copyLoop. apply elem_of_cons. by left.
    + intros [numBytes err]. destruct (_ || _); [constructor|].
      destruct err; [constructor|].
      constructor; [apply elem_of_cons; by left|]. intros _. constructor.
  - destruct (String.eqb (Name (Header entry)) ".") eqn:Hdot; simpl;
      [|constructor].
    apply String.eqb_eq in Hdot.
    assert (HP : Join (destination v) (Name (Header entry))
                 = Join (destination v) (Name (Header entry))
                 /\ (Name (Header entry) <> "." ->
                     HasPrefix (Join (destination v) (Name (Header entry)))
                       (destination v +:+ PathSeparator) = true)) by done.
    destruct (_ || _); [constructor|].
    destruct (Byte.eqb _ TypeDir).
    { rewrite Hdot. constructor. }
    destruct (Byte.eqb _ TypeReg); [|constructor].
    constructor; [exact HP| |intros err; constructor].
    intros f. apply confined_bind.
    + apply confined_copyLoop. apply elem_of_cons. by left.
    + intros [numBytes err]. destruct (_ || _); [constructor|].
      destruct err; [constructor|].
      constructor; [apply elem_of_cons; by left|]. intros _. constructor.
Qed.

(** The program of the visitor for an entry it leaves alone. *)
Lemma visit_leftAlone {F : Type} (v : tarVisitor F) (perFileReadLimit : Z)
    (entry : TarFileEntry) :
  leftAlone (destination v) entry = true ->
  visit v perFileReadLimit entry = Ret None.
Proof.
  unfold leftAlone, visit, contained. intros H.
  apply andb_true_iff in H as [Hin Hkind].
  rewrite <- negb_orb, Hin. simpl.
  destruct (Byte.eqb _ TypeSymlink); [done|].
  destruct (Byte.eqb _ TypeLink); [done|]. simpl in *.
  destruct (Byte.eqb _ TypeDir); simpl in *.
  - rewrite orb_false_r in Hkind. by rewrite Hkind.
  - by destruct (Byte.eqb _ TypeReg).
Qed.

(** X12. For an entry whose type flag is none of symlink, hard link,
    directory and regular file (a device or a fifo, say) the visitor makes
    no call to the filesystem: it returns nil when the entry passes the
    containment check and the path-traversal error otherwise. *)
Theorem visit_skips_other_types {F : Type} (v : tarVisitor F)
    (perFileReadLimit : Z) (entry : TarFileEntry) :
  Typeflag (Header entry) <> TypeSymlink ->
  Typeflag (Header entry) <> TypeLink ->
  Typeflag (Header entry) <> TypeDir ->
  Typeflag (Header entry) <> TypeReg ->
  visit v perFileReadLimit entry
  = Ret (if contained (destination v) entry then None
         else Some (ErrTraversal (Name (Header entry)))).
Proof.
  intros H1 H2 H3 H4. unfold visit, contained.
  assert (Hne : forall b, Typeflag (Header entry) <> b ->
                          Byte.eqb (Typeflag (Header entry)) b = false).
  { intros b Hb. destruct (Byte.eqb _ b) eqn:E; [|done].
    apply Byte.byte_dec_bl in E. done. }
  rewrite !Hne by done. rewrite <- negb_orb.
  by destruct (_ || _).
Qed.

(** X13. For a directory entry that passes the containment check and is
    not named ".", on any capability: when [Stat] of the target returns no
    error the visitor returns nil and makes no other call, whatever is at
    the target; when [Stat] returns an error, whichever it is, the visitor
    calls [MkdirAll] on the target with mode 0755 and returns what it
    returns. *)
Theorem visit_directory {F : Type} (v : tarVisitor F) (perFileReadLimit : Z)
    (entry : TarFileEntry) (s : F) :
  Typeflag (Header entry) = TypeDir ->
  contained (destination v) entry = true ->
  Name (Header entry) <> "." ->
  let target := Join (destination v) (Name (Header entry)) in
  runVisit v perFileReadLimit entry s
  = match Stat (fs v) target s with
    | (None, s1) => (None, s1)
    | (Some _, s1) => MkdirAll (fs v) target 493 s1
    end.
Proof.
  intros Hflag Hin Hname target. unfold runVisit, visit.
  unfold contained in Hin. rewrite <- negb_orb, Hin, Hflag.
  apply String.eqb_neq in Hname. rewrite Hname. simpl.
  fold target. destruct (Stat (fs v) target s) as [[e|] s1]; [|done].
  simpl. by destruct (MkdirAll (fs v) target 493 s1) as [[e'|] s2].
Qed.

(** X14. For a regular-file entry that passes the containment check, on
    any capability: the target is opened with [O_CREATE|O_RDWR] (no
    truncation) and the low 32 bits of the header's mode; when the open
    fails the visitor returns its error as it is and makes no other call. *)
Theorem visit_open_failure {F : Type} (v : tarVisitor F)
    (perFileReadLimit : Z) (entry : TarFileEntry) (s s1 : F) (err : error) :
  Typeflag (Header entry) = TypeReg ->
  contained (destination v) entry = true ->
  OpenFile (fs v) (Join (destination v) (Name (Header entry))) 66
    (Mode (Header entry) mod 2 ^ 32) s = (inr err, s1) ->
  runVisit v perFileReadLimit entry s = (Some err, s1).
Proof.
  intros Hflag Hin Hopen. unfold runVisit.
  rewrite (visit_regular v _ _ Hflag Hin). simpl.
  change (Z.lor O_CREATE O_RDWR) with 66. unfold FileMode.
  by rewrite Hopen.
Qed.

(** ** The containment check *)

Lemma prefix_longer (d : string) : HasPrefix d (d +:+ PathSeparator) = false.
Proof.
  unfold HasPrefix. induction d as [|c d IH]; simpl; [done|].
  destruct (ascii_dec c c); [exact IH|done].
Qed.

(** The program of the visitor for an entry that fails the containment
    check. *)
Lemma visit_refused {F : Type} (v : tarVisitor F) (perFileReadLimit : Z)
    (entry : TarFileEntry) :
  contained (destination v) entry = false ->
  visit v perFileReadLimit entry
  = Ret (Some (ErrTraversal (Name (Header entry)))).
Proof.
  unfold contained, visit. intros H. by rewrite <- negb_orb, H.
Qed.

(** X15. An entry whose joined target is the destination itself, and
    whose name is not exactly ".", is refused with the path-traversal
    error: so are the names "./", "" and "a/..", for instance. *)
Theorem visit_refuses_the_destination_itself {F : Type} (v : tarVisitor F)
    (perFileReadLimit : Z) (entry : TarFileEntry) :
  Join (destination v) (Name (Header entry)) = destination v ->
  Name (Header entry) <> "." ->
  visit v perFileReadLimit entry
  = Ret (Some (ErrTraversal (Name (Header entry)))).
Proof.
  intros Hsame Hname. apply visit_refused. unfold contained.
  rewrite Hsame, prefix_longer.
  apply String.eqb_neq in Hname. by rewrite Hname.
Qed.

Lemma splitSlash_nonempty (s : string) : splitSlash s <> [].
Proof.
  destruct s as [|c s]; simpl; [done|].
  destruct (Ascii.eqb c "/"); [done|]. by destruct (splitSlash s).
Qed.

Lemma splitSlash_app (a b : string) :
  splitSlash (a +:+ "/" +:+ b) = splitSlash a ++ splitSlash b.
Proof.
  induction a as [|c a IH]; simpl; [done|].
  rewrite IH. destruct (Ascii.eqb c "/"); [done|].
  pose proof (splitSlash_nonempty a) as Hne.
  by destruct (splitSlash a).
Qed.

Lemma rooted_first_char (c : ascii) (x y : string) :
  HasPrefix (String c x) "/" = HasPrefix (String c y) "/".
Proof.
  unfold HasPrefix. cbn [String.prefix].
  destruct (ascii_dec "/" c); [|done]. by destruct x, y.
Qed.

Lemma Clean_double_separator (c : ascii) (a b : string) :
  Clean (String c a +:+ "/" +:+ "/" +:+ b) = Clean (String c a +:+ "/" +:+ b).
Proof.
  assert (Hr : HasPrefix (String c a +:+ "/" +:+ "/" +:+ b) "/"
               = HasPrefix (String c a +:+ "/" +:+ b) "/")
    by exact (rooted_first_char c _ _).
  assert (Hs : splitSlash (String c a +:+ "/" +:+ "/" +:+ b)
               = splitSlash (String c a) ++ "" :: splitSlash b)
    by (rewrite splitSlash_app; reflexivity).
  assert (Hs' : splitSlash (String c a +:+ "/" +:+ b)
                = splitSlash (String c a) ++ splitSlash b)
    by apply splitSlash_app.
  unfold Clean. rewrite Hr, Hs, Hs', !fold_left_app. reflexivity.
Qed.

(** X16. An absolute entry name is not refused as such: for a non-empty
    destination, the target of the name "/rest" is the target of "rest",
    and the entry passes the containment check exactly when that target
    lies under the destination. *)
Theorem absolute_name_is_joined_under_destination (dst : string)
    (entry : TarFileEntry) (rest : string) :
  dst <> "" ->
  Name (Header entry) = "/" +:+ rest ->
  Join dst (Name (Header entry)) = Join dst rest
  /\ contained dst entry = HasPrefix (Join dst rest) (dst +:+ PathSeparator).
Proof.
  intros Hdst Hname.
  assert (HJ : Join dst (Name (Header entry)) = Join dst rest).
  { rewrite Hname. unfold Join.
    apply String.eqb_neq in Hdst. rewrite Hdst. simpl negb. cbv iota.
    unfold PathSeparator. destruct dst as [|c dst]; [done|].
    apply Clean_double_separator. }
  split; [exact HJ|].
  unfold contained. rewrite HJ, Hname. simpl. apply orb_false_r.
Qed.

(** *** A cleaned path has no two separators in a row *)

Lemma splitSlash_slashFree (s : string) :
  Forall (fun x => slashFree x = true) (splitSlash s).
Proof.
  induction s as [|c s IH]; simpl; [by repeat constructor|].
  destruct (Ascii.eqb c "/") eqn:Hc; [by constructor|].
  destruct (splitSlash s) as [|x xs].
  - repeat constructor. simpl. by rewrite Hc.
  - inversion IH as [|? ? Hx Hxs]; subst. constructor; [|done].
    simpl. by rewrite Hc, Hx.
Qed.

Lemma cleanStep_kept (rooted : bool) (stack : list string) (elem : string) :
  Forall (fun x => slashFree x = true /\ x <> "") stack ->
  slashFree elem = true ->
  Forall (fun x => slashFree x = true /\ x <> "") (cleanStep rooted stack elem).
Proof.
  intros Hstack Helem. unfold cleanStep.
  destruct (String.eqb elem "") eqn:He; [done|].
  apply String.eqb_neq in He.
  destruct (String.eqb elem "."); [done|]. simpl.
  destruct (String.eqb elem "..").
  - destruct stack as [|top below].
    + destruct rooted; [done|]. by repeat constructor.
    + destruct (String.eqb top ".."); [by constructor|].
      by inversion Hstack.
  - by constructor.
Qed.

Lemma Clean_kept (rooted : bool) (elems stack : list string) :
  Forall (fun x => slashFree x = true) elems ->
  Forall (fun x => slashFree x = true /\ x <> "") stack ->
  Forall (fun x => slashFree x = true /\ x <> "")
         (fold_left (cleanStep rooted) elems stack).
Proof.
  intros Helems. revert stack.
  induction Helems as [|e elems He _ IH]; intros stack Hstack; simpl; [done|].
  apply IH. by apply cleanStep_kept.
Qed.

Lemma doubled_element (x rest : string) :
  slashFree x = true ->
  startsSlash rest = false ->
  doubled rest = false ->
  doubled (x +:+ "/" +:+ rest) = false.
Proof.
  intros Hx Hs Hd. induction x as [|c x IH].
  - change (doubled (String "/" rest) = false). cbn [doubled].
    by rewrite Hs, Hd.
  - simpl in Hx. apply andb_true_iff in Hx as [Hc Hx].
    apply negb_true_iff in Hc.
    change (doubled (String c (x +:+ "/" +:+ rest)) = false).
    cbn [doubled]. rewrite Hc. simpl. by apply IH.
Qed.

Lemma slashFree_not_doubled (x : string) :
  slashFree x = true -> doubled x = false.
Proof.
  induction x as [|c x IH]; [done|]. cbn [slashFree doubled].
  intros H. apply andb_true_iff in H as [Hc Hx].
  apply negb_true_iff in Hc. rewrite Hc. simpl. by apply IH.
Qed.

Lemma startsSlash_element (x rest : string) :
  slashFree x = true -> x <> "" -> startsSlash (x +:+ rest) = false.
Proof.
  destruct x as [|c x]; [done|]. simpl. intros H _.
  apply andb_true_iff in H as [Hc _]. by apply negb_true_iff in Hc.
Qed.

Lemma joinSlash_kept (elems : list string) :
  Forall (fun x => slashFree x = true /\ x <> "") elems ->
  doubled (joinSlash elems) = false /\ startsSlash (joinSlash elems) = false.
Proof.
  induction 1 as [|x elems [Hx Hne] _ [IHd IHs]]; [done|].
  destruct elems as [|y elems].
  - simpl. split; [by apply slashFree_not_doubled|].
    destruct x as [|c x]; [done|]. simpl in *.
    apply andb_true_iff in Hx as [Hc _]. by apply negb_true_iff in Hc.
  - change (joinSlash (x :: y :: elems))
      with (x +:+ "/" +:+ joinSlash (y :: elems)).
    split; [by apply doubled_element|by apply startsSlash_element].
Qed.

Lemma Clean_not_doubled (path : string) : doubled (Clean path) = false.
Proof.
  unfold Clean. destruct (String.eqb path ""); [done|].
  destruct (joinSlash_kept
              (rev (fold_left (cleanStep (HasPrefix path "/"))
                      (splitSlash path) [])))
    as [Hd Hs].
  { apply Forall_rev, Clean_kept; [apply splitSlash_slashFree|constructor]. }
  destruct (HasPrefix path "/").
  - match goal with
    | |- doubled (_ +:+ ?j) = false =>
        change (doubled (String "/" j) = false)
    end.
    cbn [doubled]. by rewrite Hs, Hd.
  - by destruct (String.eqb _ "").
Qed.

Lemma Join_not_doubled (a b : string) : doubled (Join a b) = false.
Proof.
  unfold Join. destruct (negb (String.eqb a "")); [apply Clean_not_doubled|].
  destruct (negb (String.eqb b "")); [apply Clean_not_doubled|done].
Qed.

Lemma prefix_doubled (w t : string) :
  HasPrefix t ((w +:+ "/") +:+ "/") = true -> doubled t = true.
Proof.
  unfold HasPrefix. revert t. induction w as [|c w IH]; intros t.
  - change (("" +:+ "/") +:+ "/") with "//".
    destruct t as [|c1 [|c2 t]]; cbn [String.prefix]; try done.
    + by destruct (ascii_dec "/" c1).
    + destruct (ascii_dec "/" c1) as [<-|]; [|done].
      destruct (ascii_dec "/" c2) as [<-|]; [|done]. done.
  - change ((String c w +:+ "/") +:+ "/")
      with (String c ((w +:+ "/") +:+ "/")).
    destruct t as [|c1 t]; cbn [String.prefix]; [done|].
    destruct (ascii_dec c c1); [|done].
    intros H. cbn [doubled]. rewrite (IH t H). apply orb_true_r.
Qed.

(** X17. When the destination ends with the separator (the root "/"
    included), every entry not named "." is refused with the
    path-traversal error: the joined target is cleaned and never holds two
    separators in a row, as the prefix it is tested against does. *)
Theorem visit_refuses_under_a_destination_with_trailing_separator
    {F : Type} (v : tarVisitor F) (perFileReadLimit : Z)
    (entry : TarFileEntry) (d : string) :
  destination v = d +:+ "/" ->
  Name (Header entry) <> "." ->
  visit v perFileReadLimit entry
  = Ret (Some (ErrTraversal (Name (Header entry)))).
Proof.
  intros Hdst Hname. apply visit_refused. unfold contained.
  apply String.eqb_neq in Hname. rewrite Hname, orb_false_r.
  destruct (HasPrefix _ _) eqn:Hp; [|done].
  rewrite Hdst in Hp. unfold PathSeparator in Hp.
  apply prefix_doubled in Hp. by rewrite Join_not_doubled in Hp.
Qed.

(** ** Extraction of a whole stream *)

(** X18. When [UntarToDirectory] has gone through the pulls before an
    entry that fails the containment check, it returns the path-traversal
    error wrapped with the name of the entry (and matching it under
    [errors.Is]); the filesystem is as the entries before it left it, and
    no later entry is extracted. *)
Theorem UntarToDirectory_refused_entry {F : Type} (osfs : Fs F)
    (perFileReadLimit : Z) (reader : Stream) (dst : string)
    (pre rest : list Pull) (p : Pull) (hdr : tar_Header) (s s1 : F) :
  stream_pulls reader = pre ++ p :: rest ->
  continuesThrough reader
    (runVisit {| fs := osfs; destination := dst |} perFileReadLimit)
    (-1) s pre s1 ->
  pull_err p = None ->
  pull_hdr p = Some hdr ->
  HasPrefix (Join dst (Name hdr)) (dst +:+ PathSeparator) = false ->
  Name hdr <> "." ->
  UntarToDirectory osfs perFileReadLimit reader dst s
  = (Some (ErrVisit (Name hdr) (ErrTraversal (Name hdr))), s1)
  /\ errors_Is (ErrVisit (Name hdr) (ErrTraversal (Name hdr)))
       (ErrTraversal (Name hdr)) = true.
Proof.
  intros Hpulls Hpre He Hh Hout Hname.
  split; [|apply errors_Is_ErrVisit].
  unfold UntarToDirectory.
  destruct (IterateTar_at_error reader _ pre rest p hdr s s1 s1
              (ErrTraversal (Name hdr)) Hpulls Hpre He Hh) as [Hrun _];
    [|exact Hrun].
  unfold runVisit. cbn [fs].
  rewrite (visit_refused {| fs := osfs; destination := dst |}); [done|].
  unfold contained. cbn [destination entryAt Header]. rewrite Hout.
  apply String.eqb_neq in Hname. by rewrite Hname.
Qed.

(** The loop goes through pulls whose entries the visitor leaves alone, and
    the state of the capability stays as it was. *)
Lemma through_leftAlone {F : Type} (v : tarVisitor F) (perFileReadLimit : Z)
    (reader : Stream) (pulls : list Pull) (k : Z) (s : F) :
  Forall (fun p => pull_err p = None) pulls ->
  Forall (fun e => leftAlone (destination v) e = true)
         (entriesFrom reader k pulls) ->
  continuesThrough reader (runVisit v perFileReadLimit) k s pulls s.
Proof.
  revert k. induction pulls as [|p pulls IH]; intros k He Hall.
  - constructor.
  - inversion He as [|? ? Hp He']; subst. simpl in Hall.
    destruct (pull_hdr p) as [hdr|] eqn:Hh.
    + inversion Hall as [|? ? H1 Hall']; subst.
      eapply through_visit; eauto.
      unfold runVisit. by rewrite (visit_leftAlone v _ _ H1).
    + apply through_skip; auto.
Qed.

(** X19. On a stream without failing pulls, all of whose entries pass the
    containment check and are links, the directory ".", or of a type that
    is neither directory nor regular file, [UntarToDirectory] returns nil
    and leaves the state of every capability as it was. *)
Theorem UntarToDirectory_nothing_to_extract {F : Type} (osfs : Fs F)
    (perFileReadLimit : Z) (reader : Stream) (dst : string) (s : F) :
  Forall (fun p => pull_err p = None) (stream_pulls reader) ->
  Forall (fun e => leftAlone dst e = true)
         (entriesFrom reader (-1) (stream_pulls reader)) ->
  UntarToDirectory osfs perFileReadLimit reader dst s = (None, s).
Proof.
  intros He Hall. unfold UntarToDirectory, IterateTar.
  rewrite <- (app_nil_r (stream_pulls reader)).
  rewrite (iterate_through reader _ _ [] (-1) s s
             (through_leftAlone {| fs := osfs; destination := dst |}
                perFileReadLimit reader _ (-1) s He Hall)).
  reflexivity.
Qed.

(** ** The not-found error and the read limit *)

Lemma append_inj_closing (p1 p2 : string) :
  p1 +:+ ")" = p2 +:+ ")" -> p1 = p2.
Proof.
  revert p2. induction p1 as [|c p1 IH]; intros [|c2 p2] H.
  - done.
  - injection H as _ H. by destruct p2.
  - injection H as _ H. by destruct p1.
  - injection H as -> H. f_equal. by apply IH.
Qed.

Lemma append_inj_opening (a x y : string) : a +:+ x = a +:+ y -> x = y.
Proof.
  induction a as [|c a IH]; intros H; [exact H|].
  apply IH. by injection H.
Qed.

(** X10. The message of the not-found error carries the path as it is:
    two not-found errors with the same message are for the same path. *)
Theorem ErrFileNotFound_Error_inj (p1 p2 : string) :
  ErrFileNotFound_Error p1 = ErrFileNotFound_Error p2 -> p1 = p2.
Proof.
  unfold ErrFileNotFound_Error. intros H.
  by apply append_inj_closing, (append_inj_opening "file not found (path=").
Qed.

(** X1. A positive read limit stays positive through any number of calls
    of [setPerFileReadLimit]: a call takes over a value that parses to more
    than zero, and leaves the limit as it is for a string that does not
    parse or parses to zero or less. *)
Theorem perFileReadLimit_stays_positive (calls : list (Z + error))
    (limit : Z) :
  0 < limit ->
  0 < fold_left (fun l parsed => setPerFileReadLimit parsed l) calls limit
  /\ forall parsed,
       setPerFileReadLimit parsed limit
       = match parsed with
         | inl v => if 0 <? v then v else limit
         | inr _ => limit
         end.
Proof.
  intros Hpos. split.
  - revert limit Hpos. induction calls as [|c calls IH]; intros limit Hpos;
      simpl; [exact Hpos|].
    apply IH. by apply setPerFileReadLimit_positive.
  - intros [v|e]; [|done]. unfold setPerFileReadLimit.
    destruct (v <=? 0) eqn:H1; destruct (0 <? v) eqn:H2; try done; lia.
Qed.


(** ** Regular files on the in-memory filesystem, further *)

Lemma writeAt_over (done old0 p : list byte) :
  writeAt (done ++ drop (length done) old0) (length done) p
  = (done ++ p) ++ drop (length (done ++ p)) old0.
Proof.
  unfold writeAt.
  rewrite take_app_length, length_app, length_drop.
  replace (length done - (length done + (length old0 - length done)))%nat
    with 0%nat by lia.
  simpl. rewrite drop_app_ge by lia.
  replace (length done + length p - length done)%nat with (length p) by lia.
  rewrite drop_drop, <- app_assoc. do 3 f_equal.
  by rewrite length_app.
Qed.

(** The copy loop on the in-memory filesystem, into a file that held
    [old0] when it was opened and to which [done] has been written since:
    it writes the bytes of the payload up to the limit over the old bytes,
    and touches no other path and no other descriptor. *)
Lemma copyLoop_mem_over (f : File) (name : string) (perm : Z)
    (fin : option error) (buf : nat) (old0 : list byte) :
  (0 < buf)%nat ->
  forall (fuel : nat) (data : list byte) (N written : Z) (m : MemFs)
         (done : list byte),
    (length data < fuel)%nat ->
    opened m !! f = Some (name, length done) ->
    nodes m !! name
    = Some (FileNode perm (done ++ drop (length done) old0)) ->
    exists m',
      run memFs
        (copyLoop fuel f
           {| lr_R := {| body_data := data; body_fin := fin |}; lr_N := N |}
           buf written) m
      = ((written + Z.of_nat (length (take (Z.to_nat N) data)),
          copyErr fin (length data) N), m')
      /\ opened m' !! f
         = Some (name, length (done ++ take (Z.to_nat N) data))
      /\ nodes m' !! name
         = Some (FileNode perm
                   ((done ++ take (Z.to_nat N) data)
                    ++ drop (length (done ++ take (Z.to_nat N) data)) old0))
      /\ (forall other, other <> name -> nodes m' !! other = nodes m !! other).
Proof.
  intros Hbuf fuel.
  induction fuel as [|fuel IH]; intros data N written m done Hfuel Hfd Hnode;
    [lia|].
  cbn [copyLoop]. unfold LimitedReader_Read. cbn [lr_N lr_R].
  destruct (N <=? 0) eqn:HN.
  - apply Z.leb_le in HN. cbn.
    replace (Z.to_nat N) with 0%nat by lia. rewrite take_0, app_nil_r.
    exists m. unfold copyErr.
    replace (Z.of_nat (length data) <? N) with false
      by (symmetry; apply Z.ltb_ge; lia).
    simpl. rewrite Z.add_0_r. auto.
  - apply Z.leb_gt in HN.
    set (n := if N <? Z.of_nat buf then Z.to_nat N else buf).
    assert (Hn : (0 < n)%nat /\ (n <= Z.to_nat N)%nat).
    { unfold n. destruct (N <? Z.of_nat buf) eqn:Hb; [lia|].
      apply Z.ltb_ge in Hb. lia. }
    unfold Body_Read. cbn [body_data body_fin].
    destruct data as [|b data].
    + cbn. exists m. rewrite take_nil, app_nil_r. unfold copyErr. simpl.
      replace (Z.of_nat 0 <? N) with true by (symmetry; apply Z.ltb_lt; lia).
      rewrite Z.add_0_r.
      split; [|auto]. by destruct fin.
    + set (l := b :: data) in *.
      assert (Hp : (0 < length (take n l))%nat).
      { rewrite length_take. unfold l. simpl length. lia. }
      replace (0 <? Z.of_nat (length (take n l))) with true
        by (symmetry; apply Z.ltb_lt; lia).
      cbn [run memFs Write]. unfold mem_Write. rewrite Hfd, Hnode.
      cbn [fst snd].
      replace (Z.of_nat (length (take n l)) <? 0) with false
        by (symmetry; apply Z.ltb_ge; lia).
      rewrite Z.ltb_irrefl. cbn [orb].
      rewrite Z.eqb_refl. cbn [negb afterRead].
      rewrite writeAt_over.
      destruct (IH (drop n l) (N - Z.of_nat (length (take n l)))
                  (written + Z.of_nat (length (take n l)))
                  {| nodes := <[name:=FileNode perm
                                        ((done ++ take n l)
                                         ++ drop (length (done ++ take n l))
                                              old0)]> (nodes m);
                     opened := <[f:=(name, (length done + length (take n l))%nat)]>
                                 (opened m);
                     next_fd := next_fd m |}
                  (done ++ take n l))
        as (m' & Hrun & Hfd' & Hnode' & Hother).
      { rewrite length_drop. unfold l in *. simpl length in *. lia. }
      { cbn [opened]. rewrite lookup_insert_eq, length_app. done. }
      { cbn [nodes]. by rewrite lookup_insert_eq. }
      exists m'.
      rewrite <- !(app_assoc done (take n l)
                     (take (Z.to_nat (N - Z.of_nat (length (take n l))))
                        (drop n l))),
              <- !(take_limit_split l n N) in Hfd', Hnode' by lia.
      rewrite copyErr_step in Hrun by lia.
      rewrite Hrun. split; [|split; [done|split; [done|]]].
      * f_equal. f_equal. rewrite (take_limit_split l n N) by lia.
        rewrite length_app. lia.
      * intros other Hne. rewrite Hother by done.
        cbn [nodes]. by rewrite lookup_insert_ne.
Qed.

(** The visitor on the in-memory filesystem for a regular file whose target
    opens, on a file that holds [old0]: what it returns is decided by the
    count and the error of the copy; the file holds the bytes copied over
    the old ones, and is closed when the visitor returns nil and only
    then. *)
Lemma runVisit_regular_mem (dst : string) (perFileReadLimit : Z)
    (entry : TarFileEntry) (m m1 : MemFs) (f : File) (perm : Z)
    (old0 : list byte) :
  Typeflag (Header entry) = TypeReg ->
  contained dst entry = true ->
  let target := Join dst (Name (Header entry)) in
  let data := body_data (served (Reader entry)) in
  let taken := take (Z.to_nat perFileReadLimit) data in
  let err := copyErr (body_fin (served (Reader entry))) (length data)
               perFileReadLimit in
  mem_OpenFile target 66 (FileMode (Mode (Header entry))) m = (inl f, m1) ->
  opened m1 !! f = Some (target, 0%nat) ->
  nodes m1 !! target = Some (FileNode perm old0) ->
  exists m',
    opened m' !! f = Some (target, length taken)
    /\ nodes m' !! target
       = Some (FileNode perm (taken ++ drop (length taken) old0))
    /\ (forall other, other <> target -> nodes m' !! other = nodes m1 !! other)
    /\ runVisit {| fs := memFs; destination := dst |} perFileReadLimit entry m
       = if (Z.of_nat (length taken) >=? perFileReadLimit) || is_err err EOF
         then (Some (ErrReadLimit (Z.of_nat (length taken)) perFileReadLimit),
               m')
         else match err with
              | Some e => (Some (ErrCopy e), m')
              | None =>
                  (None, {| nodes := nodes m';
                            opened := delete f (opened m');
                            next_fd := next_fd m' |})
              end.
Proof.
  intros Hflag Hin target data taken err Hopen Hfd Hnode.
  unfold runVisit. cbn [fs].
  rewrite (visit_regular {| fs := memFs; destination := dst |} _ _ Hflag Hin).
  cbn [destination]. fold target. cbn [run memFs OpenFile].
  change (Z.lor O_CREATE O_RDWR) with 66. rewrite Hopen.
  rewrite run_bind. unfold io_Copy, LimitReader. cbn [lr_R lr_N].
  subst data taken err.
  destruct (served (Reader entry)) as [data fin]. cbn [body_data body_fin].
  destruct (copyLoop_mem_over f target perm fin _ old0
              (bufSize_pos {| lr_R := {| body_data := data; body_fin := fin |};
                              lr_N := perFileReadLimit |})
              (S (length data)) data perFileReadLimit 0 m1 [])
    as (m' & Hrun & Hfd' & Hnode' & Hother); [lia|exact Hfd|exact Hnode|].
  rewrite Hrun. clear Hrun. cbn [app] in *. rewrite Z.add_0_l.
  exists m'. repeat split; try done.
  destruct (_ || _); [done|].
  destruct (copyErr fin (length data) perFileReadLimit); [done|].
  cbn [run memFs Close]. unfold mem_Close. by rewrite Hfd'.
Qed.

(** X20. On the in-memory filesystem, a regular-file entry extracted over
    an existing file (opened without truncation): when the content is
    shorter than the read limit and served in full, the visitor returns
    nil, the file keeps its mode and holds the content followed by what the
    old file held beyond the content's length, and its descriptor is
    closed. *)
Theorem visit_regular_file_over_existing (dst : string)
    (perFileReadLimit : Z) (entry : TarFileEntry) (m : MemFs) (perm0 : Z)
    (old0 : list byte) :
  Typeflag (Header entry) = TypeReg ->
  contained dst entry = true ->
  let target := Join dst (Name (Header entry)) in
  let content := served (Reader entry) in
  let r := runVisit {| fs := memFs; destination := dst |}
             perFileReadLimit entry m in
  nodes m !! target = Some (FileNode perm0 old0) ->
  Z.of_nat (length (body_data content)) < perFileReadLimit ->
  body_fin content = None ->
  fst r = None
  /\ nodes (snd r) !! target
     = Some (FileNode perm0
               (body_data content
                ++ drop (length (body_data content)) old0))
  /\ opened (snd r) !! next_fd m = None
  /\ forall other, other <> target -> nodes (snd r) !! other = nodes m !! other.
Proof.
  intros Hflag Hin target content r Hnode Hunder Hfin.
  destruct (runVisit_regular_mem dst perFileReadLimit entry m
              {| nodes := nodes m;
                 opened := <[next_fd m := (target, 0%nat)]> (opened m);
                 next_fd := S (next_fd m) |}
              (next_fd m) perm0 old0 Hflag Hin)
    as (m' & Hfd' & Hnode' & Hother & Hrun).
  { unfold mem_OpenFile. fold target. by rewrite Hnode. }
  { cbn [opened]. by rewrite lookup_insert_eq. }
  { exact Hnode. }
  fold target content in Hfd', Hnode', Hother, Hrun.
  unfold r. rewrite Hrun. clear Hrun.
  rewrite take_ge in * by lia.
  rewrite Z.geb_leb.
  replace (perFileReadLimit <=? _) with false
    by (symmetry; apply Z.leb_gt; lia).
  unfold copyErr. rewrite Hfin.
  replace (Z.of_nat (length (body_data content)) <? perFileReadLimit)
    with true by (symmetry; apply Z.ltb_lt; lia).
  cbn. repeat split; try done. apply lookup_delete_eq.
Qed.

(** X21. On the in-memory filesystem, at a free path whose parent is a
    directory, a failed copy leaves the file on disk and its descriptor
    open. At or over a positive read limit the file holds the first
    [perFileReadLimit] bytes of the content. When the payload ends under
    the limit in a read error other than [io.EOF], the file holds the bytes
    read and the visitor returns the error wrapped as a copy error, or the
    bomb-limit error when the read error wraps [io.EOF]. *)
Theorem visit_regular_file_failure_leaves_file (dst : string)
    (perFileReadLimit : Z) (entry : TarFileEntry) (m : MemFs) (perm : Z) :
  Typeflag (Header entry) = TypeReg ->
  contained dst entry = true ->
  let target := Join dst (Name (Header entry)) in
  let content := served (Reader entry) in
  let len := length (body_data content) in
  let r := runVisit {| fs := memFs; destination := dst |}
             perFileReadLimit entry m in
  nodes m !! target = None ->
  nodes m !! parentDir target = Some (DirNode perm) ->
  (0 < perFileReadLimit <= Z.of_nat len ->
     fst r = Some (ErrReadLimit perFileReadLimit perFileReadLimit)
     /\ nodes (snd r) !! target
        = Some (FileNode (FileMode (Mode (Header entry)))
                  (take (Z.to_nat perFileReadLimit) (body_data content)))
     /\ opened (snd r) !! next_fd m
        = Some (target, Z.to_nat perFileReadLimit))
  /\ (forall e,
        Z.of_nat len < perFileReadLimit ->
        body_fin content = Some e ->
        e <> EOF ->
        fst r = Some (if errors_Is e EOF
                      then ErrReadLimit (Z.of_nat len) perFileReadLimit
                      else ErrCopy e)
        /\ nodes (snd r) !! target
           = Some (FileNode (FileMode (Mode (Header entry)))
                     (body_data content))
        /\ opened (snd r) !! next_fd m = Some (target, len)).
Proof.
  intros Hflag Hin target content len r Hfree Hparent.
  destruct (runVisit_regular_mem dst perFileReadLimit entry m
              {| nodes := <[target := FileNode (FileMode (Mode (Header entry))) []]>
                            (nodes m);
                 opened := <[next_fd m := (target, 0%nat)]> (opened m);
                 next_fd := S (next_fd m) |}
              (next_fd m) (FileMode (Mode (Header entry))) [] Hflag Hin)
    as (m' & Hfd' & Hnode' & Hother & Hrun).
  { unfold mem_OpenFile. fold target. rewrite Hfree.
    change (Z.testbit 66 6) with true. cbv iota. by rewrite Hparent. }
  { cbn [opened]. by rewrite lookup_insert_eq. }
  { cbn [nodes]. by rewrite lookup_insert_eq. }
  fold target content in Hfd', Hnode', Hother, Hrun.
  rewrite drop_nil, app_nil_r in Hnode'.
  unfold r. rewrite Hrun. clear Hrun. rewrite Z.geb_leb. split.
  - intros [Hpos Hover].
    assert (Hlen : length (take (Z.to_nat perFileReadLimit)
                             (body_data content))
                   = Z.to_nat perFileReadLimit)
      by (rewrite length_take; fold len; lia).
    rewrite Hlen in *.
    replace (perFileReadLimit <=? _) with true
      by (symmetry; apply Z.leb_le; lia).
    cbn. split; [|done]. do 2 f_equal. lia.
  - intros e Hunder Hfin Hne.
    fold len in Hunder.
    rewrite take_ge in * by (fold len; lia). fold len in Hfd' |- *.
    replace (perFileReadLimit <=? Z.of_nat len) with false
      by (symmetry; apply Z.leb_gt; lia).
    unfold copyErr. rewrite Hfin. fold len.
    replace (Z.of_nat len <? perFileReadLimit) with true
      by (symmetry; apply Z.ltb_lt; lia).
    rewrite bool_decide_false by done. cbn [orb is_err].
    by destruct (errors_Is e EOF).
Qed.

(** ** The further properties at concrete inputs *)

Lemma perFileReadLimit_stays_positive_witness :
  0 < fold_left (fun l parsed => setPerFileReadLimit parsed l)
        [inl 0; inr (ErrExternal "invalid syntax"); inl 5; inl (-3)]
        (2 * 2 ^ 30).
Proof.
  exact (proj1 (perFileReadLimit_stays_positive
                  [inl 0; inr (ErrExternal "invalid syntax"); inl 5; inl (-3)]
                  (2 * 2 ^ 30) ltac:(lia))).
Defined.

Lemma Sequence_is_pull_index_witness :
  exists p, stream_pulls gapStream !! 2%nat = Some p
            /\ pull_hdr p = Some (mkHeader TypeReg "c" bytes_hi).
Proof.
  destruct (Sequence_is_pull_index gapStream countVisitor 0%nat
              {| Sequence := 2; Header := mkHeader TypeReg "c" bytes_hi;
                 Reader := TarReader gapStream
                             {| body_data := bytes_hi; body_fin := None |} |}
              ltac:(simpl; lia))
    as (_ & p & Hp & Hh & _).
  - apply elem_of_cons. right. apply elem_of_cons. left. reflexivity.
  - exists p. split; [exact Hp | exact Hh].
Defined.

Lemma IterateTar_decode_error_witness :
  IterateTar brokenStream countVisitor 0%nat = (Some ErrUnexpectedEOF, 1%nat).
Proof.
  assert (Hpre : continuesThrough brokenStream countVisitor (-1) 0%nat
                   [mkPull TypeDir "a/" []] 1%nat).
  { eapply through_visit; [reflexivity | reflexivity | reflexivity |].
    apply through_nil. }
  exact (proj1 (IterateTar_decode_error brokenStream countVisitor
                  [mkPull TypeDir "a/" []] [mkPull TypeReg "c" []]
                  (failPull ErrUnexpectedEOF) 0%nat 1%nat ErrUnexpectedEOF
                  eq_refl Hpre eq_refl)).
Defined.


Lemma ReaderFromTar_sound_witness :
  exists pre m post hdr,
    stream_pulls threeEntries = pre ++ m :: post
    /\ forallb (passes "a/b.txt") pre = true
    /\ matches "a/b.txt" m = true
    /\ pull_hdr m = Some hdr
    /\ Name hdr = "a/b.txt"
    /\ {| tf_Reader := TarReader threeEntries
                         {| body_data := bytes_hi; body_fin := None |};
          tf_Closer := threeEntries |}
       = {| tf_Reader := TarReader threeEntries (pull_body m);
            tf_Closer := threeEntries |}.
Proof.
  exact (ReaderFromTar_sound threeEntries "a/b.txt" _ eq_refl).
Defined.

Lemma MetadataFromTar_sound_witness :
  exists pre m post hdr,
    stream_pulls threeEntries = pre ++ m :: post
    /\ forallb (passes "a/b.txt") pre = true
    /\ matches "a/b.txt" m = true
    /\ pull_hdr m = Some hdr
    /\ Name hdr = "a/b.txt"
    /\ (mkHeader TypeReg "a/b.txt" bytes_hi, Some (StreamReader threeEntries))
       = keepArgs hdr
           (if 0 <? Size hdr then Some (StreamReader threeEntries) else None).
Proof.
  exact (MetadataFromTar_sound _ keepArgs noArgs threeEntries "a/b.txt" _
           eq_refl).
Defined.

Lemma lookups_at_failed_pull_witness :
  ReaderFromTar brokenStream "c" = (None, Some ErrUnexpectedEOF)
  /\ MetadataFromTar _ keepArgs noArgs brokenStream "c"
     = (noArgs, Some ErrUnexpectedEOF).
Proof.
  exact (lookups_at_failed_pull _ keepArgs noArgs brokenStream "c"
           [mkPull TypeDir "a/" []] [mkPull TypeReg "c" []]
           (failPull ErrUnexpectedEOF) ErrUnexpectedEOF
           eq_refl eq_refl eq_refl).
Defined.

Lemma ErrFileNotFound_Error_inj_witness :
  ErrFileNotFound_Error "a/b.txt" = "file not found (path=a/b.txt)"
  /\ "a/b.txt" = "a/b.txt".
Proof.
  split; [reflexivity|].
  exact (ErrFileNotFound_Error_inj "a/b.txt" "a/b.txt" eq_refl).
Defined.

Lemma visit_skips_other_types_witness :
  visit outVisitor (2 * 2 ^ 30) (mkEntry "3"%byte "dev/null" []) = Ret None.
Proof.
  exact (visit_skips_other_types outVisitor (2 * 2 ^ 30)
           (mkEntry "3"%byte "dev/null" [])
           ltac:(discriminate) ltac:(discriminate) ltac:(discriminate)
           ltac:(discriminate)).
Defined.

Lemma visit_directory_witness :
  runVisit outVisitor (2 * 2 ^ 30) (mkEntry TypeDir "a/" []) outFs
  = mem_MkdirAll "/out/a" 493 outFs.
Proof.
  exact (visit_directory outVisitor (2 * 2 ^ 30) (mkEntry TypeDir "a/" [])
           outFs eq_refl eq_refl ltac:(discriminate)).
Defined.

Lemma visit_open_failure_witness :
  runVisit outVisitor (2 * 2 ^ 30) (mkEntry TypeReg "x/y.txt" bytes_hi) outFs
  = (Some ENOENT, outFs).
Proof.
  exact (visit_open_failure outVisitor (2 * 2 ^ 30)
           (mkEntry TypeReg "x/y.txt" bytes_hi) outFs outFs ENOENT
           eq_refl eq_refl eq_refl).
Defined.

Lemma visit_refuses_the_destination_itself_witness :
  visit outVisitor (2 * 2 ^ 30) (mkEntry TypeDir "./" [])
  = Ret (Some (ErrTraversal "./")).
Proof.
  exact (visit_refuses_the_destination_itself outVisitor (2 * 2 ^ 30)
           (mkEntry TypeDir "./" []) eq_refl ltac:(discriminate)).
Defined.

Lemma absolute_name_is_joined_under_destination_witness :
  Join "/out" "/etc/passwd" = "/out/etc/passwd"
  /\ contained "/out" (mkEntry TypeReg "/etc/passwd" bytes_hi) = true.
Proof.
  destruct (absolute_name_is_joined_under_destination "/out"
              (mkEntry TypeReg "/etc/passwd" bytes_hi) "etc/passwd"
              ltac:(discriminate) eq_refl) as [H1 H2].
  split; [exact H1 | rewrite H2; reflexivity].
Defined.

Lemma visit_refuses_under_a_destination_with_trailing_separator_witness :
  visit {| fs := memFs; destination := "/out/" |} (2 * 2 ^ 30)
    (mkEntry TypeReg "a.txt" bytes_hi)
  = Ret (Some (ErrTraversal "a.txt")).
Proof.
  exact (visit_refuses_under_a_destination_with_trailing_separator
           {| fs := memFs; destination := "/out/" |} (2 * 2 ^ 30)
           (mkEntry TypeReg "a.txt" bytes_hi) "/out"
           eq_refl ltac:(discriminate)).
Defined.

Lemma UntarToDirectory_refused_entry_witness :
  fst (UntarToDirectory memFs (2 * 2 ^ 30) escapeStream "/out" outFs)
  = Some (ErrVisit "../escape" (ErrTraversal "../escape")).
Proof.
  assert (Hpre : continuesThrough escapeStream
                   (runVisit {| fs := memFs; destination := "/out" |}
                      (2 * 2 ^ 30))
                   (-1) outFs [mkPull TypeDir "a/" []]
                   (snd (mem_MkdirAll "/out/a" 493 outFs))).
  { eapply through_visit; [reflexivity | reflexivity | reflexivity |].
    apply through_nil. }
  destruct (UntarToDirectory_refused_entry memFs (2 * 2 ^ 30) escapeStream
              "/out" [mkPull TypeDir "a/" []] [mkPull TypeReg "c" []]
              (mkPull TypeReg "../escape" bytes_hi) _ outFs _
              eq_refl Hpre eq_refl eq_refl eq_refl ltac:(discriminate))
    as [H _].
  rewrite H. reflexivity.
Defined.

Lemma UntarToDirectory_nothing_to_extract_witness :
  UntarToDirectory memFs (2 * 2 ^ 30) linkStream "/out" outFs = (None, outFs).
Proof.
  apply (UntarToDirectory_nothing_to_extract memFs (2 * 2 ^ 30) linkStream
           "/out" outFs).
  - repeat constructor.
  - repeat constructor.
Defined.

Lemma visit_regular_file_over_existing_witness :
  nodes (snd (runVisit outVisitor (2 * 2 ^ 30)
                (mkEntry TypeReg "a.txt" bytes_hi) outFsWithFile))
    !! "/out/a.txt"
  = Some (FileNode 384 ["h"%byte; "i"%byte; "l"%byte; "l"%byte; "o"%byte]).
Proof.
  destruct (visit_regular_file_over_existing "/out" (2 * 2 ^ 30)
              (mkEntry TypeReg "a.txt" bytes_hi) outFsWithFile 384 bytes_hello
              eq_refl eq_refl eq_refl ltac:(simpl; lia) eq_refl)
    as (_ & H & _).
  exact H.
Defined.

Lemma visit_regular_file_failure_leaves_file_witness :
  let r := runVisit outVisitor (2 * 2 ^ 30) brokenEntry outFs in
  fst r = Some (ErrCopy ErrUnexpectedEOF)
  /\ nodes (snd r) !! "/out/a.txt" = Some (FileNode 420 bytes_hi)
  /\ opened (snd r) !! 3%nat = Some ("/out/a.txt", 2%nat).
Proof.
  destruct (visit_regular_file_failure_leaves_file "/out" (2 * 2 ^ 30)
              brokenEntry outFs 493 eq_refl eq_refl eq_refl eq_refl)
    as [_ H].
  exact (H ErrUnexpectedEOF ltac:(simpl; lia) eq_refl ltac:(discriminate)).
Defined.
